(** * Verification of the slippery slippy-map tile engine

    Shallow embedding of the core of the crate:
    - [TileCache::update], the per-tile cache state machine (src/tile_cache.rs);
    - [TileId] construction and neighbours (src/tile.rs);
    - [Mercator], [Geographic], [Zoom] and the [Projector] transforms
      (src/position.rs, src/zoom.rs, src/projector.rs);
    - the flood-fill visibility search (src/map_widget.rs);
    - [DrawCache::iter_tiles] (src/draw_cache.rs).

    Integer arithmetic of the crate is modelled on [Z] with the overflow
    checks of a build with [overflow-checks] on (Rust's default debug
    profile): an overflowing [u32]/[usize] operation is a panic, modelled
    as [None]. *)

From Stdlib Require Import ZArith Lia Reals Lra.
From stdpp Require Import base gmap list sorting.

Local Set Warnings "-register-all".
Open Scope Z_scope.

(* ------------------------------------------------------------------ *)
(** ** Checked machine arithmetic *)

Definition U32_LIMIT : Z := 2 ^ 32.

(** [2u32.pow(e)]: panics (None) when the result does not fit in u32. *)
Definition u32_pow2 (e : Z) : option Z :=
  if (0 <=? e)%Z && (2 ^ e <? U32_LIMIT)%Z then Some (2 ^ e)%Z else None.

(** [a - b] on [u32]/[usize]: panics (None) on underflow. *)
Definition checked_sub (a b : Z) : option Z :=
  if (b <=? a)%Z then Some (a - b)%Z else None.

(* ------------------------------------------------------------------ *)
(** ** Tile identifiers (src/tile.rs) *)

Record TileId := mkTileId { tile_x : Z; tile_y : Z; tile_zoom : Z }.

#[global] Instance TileId_eq_dec : EqDecision TileId.
Proof. solve_decision. Defined.

#[global] Instance TileId_countable : Countable TileId.
Proof.
  apply (inj_countable' (fun t => (tile_x t, tile_y t, tile_zoom t))
                        (fun '(x, y, z) => mkTileId x y z)).
  by intros [].
Defined.

(** [total_tiles(zoom) = 2u32.pow(zoom as u32)] (src/position.rs). *)
Definition total_tiles (zoom : Z) : option Z := u32_pow2 zoom.

(** [clamp(min, max)] on integers. *)
Definition zclamp (v lo hi : Z) : Z := Z.max lo (Z.min v hi).

(** [TileId::new]: [x.clamp(0, num_tiles - 1)], [y.clamp(0, num_tiles - 1)]. *)
Definition TileId_new (x y zoom : Z) : option TileId :=
  match u32_pow2 zoom with
  | None => None
  | Some num_tiles =>
      match checked_sub num_tiles 1 with
      | None => None
      | Some hi => Some (mkTileId (zclamp x 0 hi) (zclamp y 0 hi) zoom)
      end
  end.

(* ------------------------------------------------------------------ *)
(** ** The tile cache (src/tile_cache.rs) *)

(** Image handles and renderer allocations are opaque to the cache; they
    are identified by numbers. Instants are milliseconds. *)
Definition Handle := Z.
Definition Allocation := Z.
Definition Instant := Z.

Definition PRUNE_TIME : Z := 60000.
Definition PRUNE_THRESH : Z := 1024.
Definition CLEANUP_COOLDOWN : Z := 5000.
Definition DEALLOC_DELAY : Z := 100.

Inductive CacheMessage :=
| Load (id : TileId)
| Loaded (id : TileId) (handle : Handle)
| LoadFailed (id : TileId)
| Allocate (id : TileId)
| Allocated (id : TileId) (alloc : Allocation)
| AllocFailed (id : TileId) (err : Z)
| Deallocate (id : TileId)
| Prune.

Inductive State :=
| Loading
| StLoaded (h : Handle)
| Allocating (h : Handle)
| StAllocated (h : Handle) (a : Allocation).

Record Entry := mkEntry { state : State; last_used : Instant }.

(** [Entry::new]: the entry is stamped with [Instant::now()]. *)
Definition Entry_new (now : Instant) (s : State) : Entry := mkEntry s now.

Record TileCache := mkTileCache {
  cache : gmap TileId Entry;
  cleanup_timer : Instant
}.

(** [iced::Task<CacheMessage>]: what the update hands back to the runtime. *)
Inductive Task :=
| TaskNone
| TaskDone (m : CacheMessage)
(** [Task::future(fetch_tile(id))], resolving to [Loaded] or [LoadFailed]. *)
| TaskFetch (id : TileId)
(** [image::allocate(handle)], resolving to [Allocated] or [AllocFailed]. *)
| TaskAllocate (id : TileId) (h : Handle)
(** [Task::future(async { sleep(ms).await; m })]. *)
| TaskDelayed (ms : Z) (m : CacheMessage)
| TaskBatch (ts : list Task).

(** Messages a task yields immediately ([Task::done]). *)
Fixpoint task_done (t : Task) : list CacheMessage :=
  match t with
  | TaskDone m => [m]
  | TaskBatch ts => (fix go ts := match ts with
                                  | [] => []
                                  | t :: ts => task_done t ++ go ts
                                  end) ts
  | _ => []
  end.

(** Messages a task yields after a delay, with the delay. *)
Fixpoint task_delayed (t : Task) : list (Z * CacheMessage) :=
  match t with
  | TaskDelayed ms m => [(ms, m)]
  | TaskBatch ts => (fix go ts := match ts with
                                  | [] => []
                                  | t :: ts => task_delayed t ++ go ts
                                  end) ts
  | _ => []
  end.

(** [start_time.checked_duration_since(earlier)]. *)
Definition checked_duration_since (self earlier : Instant) : option Z :=
  if (earlier <=? self)%Z then Some (self - earlier)%Z else None.

(** The closure passed to [retain] in the [Prune] arm, without its
    counter: whether an entry is kept. *)
Definition retain_entry (start_time : Instant) (id : TileId) (v : Entry) : bool :=
  match state v with
  | Loading | Allocating _ => true
  | _ =>
      if (tile_zoom id <? 6)%Z then true
      else match checked_duration_since start_time (last_used v) with
           | None => true
           | Some diff => (diff <? PRUNE_TIME)%Z
           end
  end.

(** The [retain] pass in iteration order: returns the keys it removes.
    [prune_count] counts the removals so far. *)
Fixpoint prune_scan (start_time prune_target prune_count : Z)
    (es : list (TileId * Entry)) : list TileId :=
  match es with
  | [] => []
  | (id, v) :: es' =>
      if (prune_target <=? prune_count)%Z
      then prune_scan start_time prune_target prune_count es'
      else if retain_entry start_time id v
      then prune_scan start_time prune_target prune_count es'
      else id :: prune_scan start_time prune_target (prune_count + 1) es'
  end.

(** The map after [retain] dropped the keys in [removed]. *)
Definition drop_keys (removed : list TileId) (m : gmap TileId Entry)
    : gmap TileId Entry :=
  filter (fun kv : TileId * Entry => kv.1 ∉ removed) m.

(** [TileCache::update]. [now] is the value of [Instant::now()] during the
    call. The iteration order of the [HashMap] is unspecified; the model
    iterates in [map_to_list] order. [None] is a panic. *)
Definition update (now : Instant) (tc0 : TileCache) (msg : CacheMessage)
    : option (TileCache * Task) :=
  let '(tc, cleanup_task) :=
    if (PRUNE_THRESH <? Z.of_nat (size (cache tc0)))%Z
       && (CLEANUP_COOLDOWN <? Z.max 0 (now - cleanup_timer tc0))%Z
    then (mkTileCache (cache tc0) now, TaskDone Prune)
    else (tc0, TaskNone) in
  let c := cache tc in
  let with_cache c' := mkTileCache c' (cleanup_timer tc) in
  let ret c' task := Some (with_cache c', TaskBatch [cleanup_task; task]) in
  match msg with
  | Prune =>
      let start_time := now in
      let start_size := Z.of_nat (size c) in
      match checked_sub start_size PRUNE_THRESH with
      | None => None
      | Some prune_target =>
          let removed := prune_scan start_time prune_target 0 (map_to_list c) in
          ret (drop_keys removed c) TaskNone
      end
  | Load id =>
      match c !! id with
      | Some _ => ret c TaskNone
      | None => ret (<[id := Entry_new now Loading]> c) (TaskFetch id)
      end
  | Loaded id handle =>
      ret (<[id := Entry_new now (StLoaded handle)]> c) (TaskDone (Allocate id))
  | LoadFailed id =>
      match c !! id with
      | Some (mkEntry Loading _) => ret (delete id c) TaskNone
      | _ => ret c TaskNone
      end
  | Allocate id =>
      match c !! id with
      | Some (mkEntry (StLoaded h) _) =>
          ret (<[id := mkEntry (Allocating h) now]> c) (TaskAllocate id h)
      | _ => ret c TaskNone
      end
  | Allocated id allocation =>
      match c !! id with
      | Some (mkEntry (Allocating h) _) | Some (mkEntry (StLoaded h) _) =>
          ret (<[id := mkEntry (StAllocated h allocation) now]> c)
              (if (1 <? tile_zoom id)%Z
               then TaskDelayed DEALLOC_DELAY (Deallocate id) else TaskNone)
      | _ => ret c TaskNone
      end
  | AllocFailed id _ =>
      match c !! id with
      | Some (mkEntry (Allocating h) lu) =>
          ret (<[id := mkEntry (StLoaded h) lu]> c) TaskNone
      | _ => ret c TaskNone
      end
  | Deallocate id =>
      match c !! id with
      | Some (mkEntry (StAllocated h _) lu) =>
          ret (<[id := mkEntry (StLoaded h) lu]> c) TaskNone
      | _ => ret c TaskNone
      end
  end.

Definition empty_cache (now : Instant) : TileCache := mkTileCache ∅ now.

(* ------------------------------------------------------------------ *)
(** ** Floating point values

    An [f64] (or [f32]) is a finite value, an infinity or NaN. Finite
    values are exact reals: rounding is not modelled, NaN and infinities
    propagate as IEEE 754 prescribes (signed zeros are not distinguished). *)

Inductive f64 := Fin (r : R) | PosInf | NegInf | NaN.

Definition Rltb (x y : R) : bool := if Rlt_dec x y then true else false.
Definition Rleb (x y : R) : bool := if Rle_dec x y then true else false.

(** [a < b]: false as soon as one side is NaN. *)
Definition f64_lt (a b : f64) : bool :=
  match a, b with
  | Fin x, Fin y => Rltb x y
  | Fin _, PosInf | NegInf, Fin _ | NegInf, PosInf => true
  | _, _ => false
  end.

(** [a <= b]. *)
Definition f64_le (a b : f64) : bool :=
  match a, b with
  | Fin x, Fin y => Rleb x y
  | Fin _, PosInf | NegInf, Fin _ | NegInf, PosInf
  | PosInf, PosInf | NegInf, NegInf => true
  | _, _ => false
  end.

Definition f64_neg (a : f64) : f64 :=
  match a with
  | Fin x => Fin (- x) | PosInf => NegInf | NegInf => PosInf | NaN => NaN
  end.

Definition f64_add (a b : f64) : f64 :=
  match a, b with
  | Fin x, Fin y => Fin (x + y)
  | NaN, _ | _, NaN | PosInf, NegInf | NegInf, PosInf => NaN
  | PosInf, _ | _, PosInf => PosInf
  | NegInf, _ | _, NegInf => NegInf
  end.

Definition f64_sub (a b : f64) : f64 := f64_add a (f64_neg b).

(** Sign of a finite factor times an infinity. *)
Definition inf_times (x : R) (inf : f64) : f64 :=
  if Rltb 0 x then inf else if Rltb x 0 then f64_neg inf else NaN.

Definition f64_mul (a b : f64) : f64 :=
  match a, b with
  | Fin x, Fin y => Fin (x * y)
  | NaN, _ | _, NaN => NaN
  | Fin x, inf | inf, Fin x => inf_times x inf
  | PosInf, PosInf | NegInf, NegInf => PosInf
  | _, _ => NegInf
  end.

Definition f64_div (a b : f64) : f64 :=
  match a, b with
  | Fin x, Fin y =>
      if Rltb y 0 || Rltb 0 y then Fin (x / y) else inf_times x PosInf
  | Fin _, _ => match b with NaN => NaN | _ => Fin 0 end
  | NaN, _ | _, NaN => NaN
  | inf, Fin y => inf_times y inf
  | _, _ => NaN
  end.

(** [f64::clamp(min, max)] of the standard library, for [min <= max]:
    [if self < min { min } ; if self > max { max } ; self]. A NaN [self]
    stays NaN. *)
Definition f64_clamp (v lo hi : f64) : f64 :=
  let v := if f64_lt v lo then lo else v in
  if f64_lt hi v then hi else v.

(** [f64::min]: a NaN operand yields the other operand. *)
Definition f64_min (a b : f64) : f64 :=
  match a, b with
  | NaN, _ => b
  | _, NaN => a
  | _, _ => if f64_lt b a then b else a
  end.

(** Integer part towards minus infinity, on reals. *)
Definition Rfloor (x : R) : Z := Int_part x.

Definition f64_floor (a : f64) : f64 :=
  match a with Fin x => Fin (IZR (Rfloor x)) | _ => a end.

(** [f64::round]: halves are rounded away from zero. *)
Definition f64_round (a : f64) : f64 :=
  match a with
  | Fin x =>
      if Rleb 0 x then Fin (IZR (Rfloor (x + /2)))
      else Fin (- IZR (Rfloor (- x + /2)))
  | _ => a
  end.

(** [2f64.powf(e)]. *)
Definition f64_pow2 (e : f64) : f64 :=
  match e with
  | Fin x => Fin (Rpower 2 x) | PosInf => PosInf | NegInf => Fin 0 | NaN => NaN
  end.

(** [f64::log2]. *)
Definition f64_log2 (a : f64) : f64 :=
  match a with
  | Fin x => if Rltb 0 x then Fin (ln x / ln 2)
             else if Rltb x 0 then NaN else NegInf
  | PosInf => PosInf
  | _ => NaN
  end.

(** Truncation towards zero of a real, as an integer. *)
Definition Rtrunc (x : R) : Z :=
  if Rleb 0 x then Rfloor x else (- Rfloor (- x))%Z.

(** A float-to-integer [as] cast onto [[0, hi]]: saturating, NaN gives 0. *)
Definition f64_as_uint (hi : Z) (a : f64) : Z :=
  match a with
  | Fin x => Z.max 0 (Z.min hi (Rtrunc x))
  | PosInf => hi
  | _ => 0
  end.

Definition f64_as_u8 (a : f64) : Z := f64_as_uint 255 a.
Definition f64_as_u32 (a : f64) : Z := f64_as_uint (U32_LIMIT - 1) a.

(** An integer [as f64]. *)
Definition f64_of_Z (n : Z) : f64 := Fin (IZR n).

(* ------------------------------------------------------------------ *)
(** ** Positions (src/position.rs) and zoom (src/zoom.rs) *)

Definition BASE_SIZE : Z := 512.

Record Mercator := mkMercator { merc_x : f64; merc_y : f64 }.

(** [Mercator::new]: both components clamped to [[-1, 1]]. *)
Definition Mercator_new (east north : f64) : Mercator :=
  mkMercator (f64_clamp east (Fin (-1)) (Fin 1))
             (f64_clamp north (Fin (-1)) (Fin 1)).

Record Geographic := mkGeographic { lon : f64; lat : f64 }.

Definition LAT_LIMIT : R := 8505 / 100.

(** [Geographic::new]. *)
Definition Geographic_new (lon lat : f64) : Geographic :=
  mkGeographic (f64_clamp lon (Fin (-180)) (Fin 180))
               (f64_clamp lat (Fin (- LAT_LIMIT)) (Fin LAT_LIMIT)).

(** [Zoom] wraps an [f64]; [Zoom::try_from] returns [None] for
    [Err(InvalidZoom)]: [!(2. ..=26.).contains(&value)]. *)
Record Zoom := mkZoom { zoom_f64 : f64 }.

Definition Zoom_try_from (value : f64) : option Zoom :=
  if negb (f64_le (Fin 2) value && f64_le value (Fin 26)) then None
  else Some (mkZoom value).

(** [Zoom::zoom_by]: [if let Ok(new_self) = Self::try_from(self.0 + a)]. *)
Definition zoom_by (self : Zoom) (zoom_amount : f64) : Zoom :=
  match Zoom_try_from (f64_add (zoom_f64 self) zoom_amount) with
  | Some new_self => new_self
  | None => self
  end.

(* ------------------------------------------------------------------ *)
(** ** The draw cache (src/draw_cache.rs) *)

(** [DrawData]: image handle, pixel-space centre, size and allocation. *)
Record DrawData := mkDrawData {
  dd_handle : Handle;
  dd_center : f64 * f64;
  dd_size : f64;
  dd_allocation : Allocation
}.

#[global] Instance DrawData_inhabited : Inhabited DrawData :=
  populate (mkDrawData 0 (NaN, NaN) NaN 0).

(** [maps: HashMap<u8, HashMap<(u32, u32), DrawData>>]. *)
Record DrawCache := mkDrawCache { maps : gmap Z (gmap (Z * Z) DrawData) }.

(** [DrawCache::iter_tiles]: collect the zoom keys, [sort()] them, and
    flat-map every zoom to the values of its inner map ([self.maps[zoom]]
    never misses, the zoom being one of the keys). The inner maps are
    iterated in [map_to_list] order, standing for the unspecified
    [HashMap] order. *)
Definition iter_tiles (dc : DrawCache) : list DrawData :=
  let zooms := merge_sort Z.le (map fst (map_to_list (maps dc))) in
  flat_map (fun zoom => map snd (map_to_list (maps dc !!! zoom))) zooms.

(* ------------------------------------------------------------------ *)
(** ** Points, rectangles and the projector (src/projector.rs,
    src/viewpoint.rs, src/lib.rs; [Point] and [Rectangle] of iced) *)

(** [iced::Point]; [as f32] / [as f64] casts between the screen-space
    ([f32]) and pixel-space ([f64]) points are the identity here. *)
Record Point := mkPoint { px : f64; py : f64 }.

(** [iced::Rectangle]. *)
Record Rectangle := mkRect { rx : f64; ry : f64; rwidth : f64; rheight : f64 }.

(** [Point - Point] gives a vector, [Point + Vector] a point. *)
Definition point_sub (a b : Point) : Point :=
  mkPoint (f64_sub (px a) (px b)) (f64_sub (py a) (py b)).
Definition point_add (a v : Point) : Point :=
  mkPoint (f64_add (px a) (px v)) (f64_add (py a) (py v)).

(** [Rectangle::center]. *)
Definition Rectangle_center (r : Rectangle) : Point :=
  mkPoint (f64_add (rx r) (f64_div (rwidth r) (Fin 2)))
          (f64_add (ry r) (f64_div (rheight r) (Fin 2))).

(** [Rectangle::expand(padding)]: the same padding on every side. *)
Definition Rectangle_expand (r : Rectangle) (padding : f64) : Rectangle :=
  mkRect (f64_sub (rx r) padding) (f64_sub (ry r) padding)
         (f64_add (rwidth r) (f64_mul (Fin 2) padding))
         (f64_add (rheight r) (f64_mul (Fin 2) padding)).

(** [Rectangle::intersects]. *)
Definition Rectangle_intersects (self other : Rectangle) : bool :=
  f64_lt (rx self) (f64_add (rx other) (rwidth other))
  && f64_lt (rx other) (f64_add (rx self) (rwidth self))
  && f64_lt (ry self) (f64_add (ry other) (rheight other))
  && f64_lt (ry other) (f64_add (ry self) (rheight self)).

(** [RoundCeil::round_ceil]: [(self + 0.5).floor()]. *)
Definition round_ceil (v : f64) : f64 := f64_floor (f64_add v (Fin (/ 2))).
Definition point_round_ceil (p : Point) : Point :=
  mkPoint (round_ceil (px p)) (round_ceil (py p)).

(** [2f64.powf(zoom - 1.0) * (BASE_SIZE as f64)]. *)
Definition pixels_half_width (zoom : f64) : f64 :=
  f64_mul (f64_pow2 (f64_sub zoom (Fin 1))) (f64_of_Z BASE_SIZE).

(** [Mercator::from_pixel_space]. *)
Definition Mercator_from_pixel_space (point : Point) (zoom : f64) : Mercator :=
  let phw := pixels_half_width zoom in
  Mercator_new (f64_div (px point) phw) (f64_div (py point) phw).

(** [Mercator::into_pixel_space]. *)
Definition Mercator_into_pixel_space (m : Mercator) (zoom : f64) : Point :=
  let phw := pixels_half_width zoom in
  mkPoint (f64_mul (merc_x m) phw) (f64_mul (merc_y m) phw).

Record Viewpoint := mkViewpoint { vp_position : Mercator; vp_zoom : Zoom }.

(** [Viewpoint::into_pixel_space]. *)
Definition Viewpoint_into_pixel_space (vp : Viewpoint) : Point :=
  Mercator_into_pixel_space (vp_position vp) (zoom_f64 (vp_zoom vp)).

Record Projector := mkProjector {
  viewpoint : Viewpoint;
  cursor : option Point;
  bounds : Rectangle
}.

Definition screen_space_into_pixel_space (p : Projector) (point : Point) : Point :=
  let center_pixel_space := point_round_ceil (Viewpoint_into_pixel_space (viewpoint p)) in
  let point_offset := point_sub point (Rectangle_center (bounds p)) in
  point_add center_pixel_space point_offset.

Definition pixel_space_into_screen_space (p : Projector) (point : Point) : Point :=
  let center_pixel_space := point_round_ceil (Viewpoint_into_pixel_space (viewpoint p)) in
  let position_offset := point_sub point center_pixel_space in
  point_add (Rectangle_center (bounds p)) position_offset.

Definition mercator_into_pixel_space (p : Projector) (m : Mercator) : Point :=
  Mercator_into_pixel_space m (zoom_f64 (vp_zoom (viewpoint p))).

Definition pixel_space_into_mercator (p : Projector) (point : Point) : Mercator :=
  Mercator_from_pixel_space point (zoom_f64 (vp_zoom (viewpoint p))).

Definition mercator_into_screen_space (p : Projector) (m : Mercator) : Point :=
  pixel_space_into_screen_space p (mercator_into_pixel_space p m).

Definition screen_space_into_mercator (p : Projector) (point : Point) : Mercator :=
  pixel_space_into_mercator p (screen_space_into_pixel_space p point).


(* ------------------------------------------------------------------ *)
(** ** Tile neighbours and the flood-fill visibility search
    (src/tile.rs, src/position.rs, src/map_widget.rs)

    The crate's [TileCoord] lives in src/tile_coord.rs, which is not part
    of the sources; its constructor and neighbours are those of [TileId]
    in src/tile.rs, modelled here on [TileId]. *)

(** [TileId::north]: [y.checked_sub(1)?]. *)
Definition tile_north (t : TileId) : option TileId :=
  match checked_sub (tile_y t) 1 with
  | Some y => Some (mkTileId (tile_x t) y (tile_zoom t))
  | None => None
  end.

(** [TileId::west]: [x.checked_sub(1)?]. *)
Definition tile_west (t : TileId) : option TileId :=
  match checked_sub (tile_x t) 1 with
  | Some x => Some (mkTileId x (tile_y t) (tile_zoom t))
  | None => None
  end.

(** [TileId::east]: [(x < total_tiles(zoom) - 1).then(..)]. The outer
    [option] is a panic of [total_tiles] or of the subtraction; [x + 1]
    cannot overflow below [total_tiles(zoom) - 1]. *)
Definition tile_east (t : TileId) : option (option TileId) :=
  match total_tiles (tile_zoom t) with
  | None => None
  | Some n =>
      match checked_sub n 1 with
      | None => None
      | Some m =>
          Some (if tile_x t <? m
                then Some (mkTileId (tile_x t + 1) (tile_y t) (tile_zoom t))
                else None)
      end
  end.

(** [TileId::south]: [(y < total_tiles(zoom) - 1).then(..)]. *)
Definition tile_south (t : TileId) : option (option TileId) :=
  match total_tiles (tile_zoom t) with
  | None => None
  | Some n =>
      match checked_sub n 1 with
      | None => None
      | Some m =>
          Some (if tile_y t <? m
                then Some (mkTileId (tile_x t) (tile_y t + 1) (tile_zoom t))
                else None)
      end
  end.

Definition opt_list {A} (o : option A) : list A :=
  match o with Some a => [a] | None => [] end.

(** [tile_id.neighbors().iter().flatten()]: north, east, south and west,
    the absent ones skipped; [None] is a panic. *)
Definition neighbors (t : TileId) : option (list TileId) :=
  match tile_east t, tile_south t with
  | Some e, Some s =>
      Some (opt_list (tile_north t) ++ opt_list e ++ opt_list s ++ opt_list (tile_west t))
  | _, _ => None
  end.

(** Modelled from the spec: [TileCoord::to_mercator], the tile's origin
    corner, inverse to [Mercator::tile_id]:
    [(x / 2^zoom * 2 - 1, y / 2^zoom * 2 - 1)]. *)
Definition TileCoord_to_mercator (t : TileId) : Mercator :=
  let n := f64_of_Z (2 ^ tile_zoom t) in
  Mercator_new (f64_sub (f64_mul (f64_div (f64_of_Z (tile_x t)) n) (Fin 2)) (Fin 1))
               (f64_sub (f64_mul (f64_div (f64_of_Z (tile_y t)) n) (Fin 2)) (Fin 1)).

(** [Mercator::tile_id] (src/position.rs). *)
Definition Mercator_tile_id (m : Mercator) (zoom : Z) : option TileId :=
  let x := f64_div (f64_add (merc_x m) (Fin 1)) (Fin 2) in
  let y := f64_div (f64_add (merc_y m) (Fin 1)) (Fin 2) in
  match u32_pow2 zoom with
  | None => None
  | Some number_of_tiles =>
      let x := f64_as_u32 (f64_floor (f64_mul x (f64_of_Z number_of_tiles))) in
      let y := f64_as_u32 (f64_floor (f64_mul y (f64_of_Z number_of_tiles))) in
      TileId_new x y zoom
  end.

(** [MapWidget::position_of_tile]: [tile_size] is
    [self.tile_cache.tile_size()], [vp] is [self.viewpoint]. *)
Definition position_of_tile (tile_size : Z) (vp : Viewpoint) (projector : Projector)
    (tile_id : TileId) : Rectangle :=
  let tile_size := f64_of_Z tile_size in
  let scale_offset := f64_log2 (f64_div (f64_of_Z BASE_SIZE) tile_size) in
  let scale := f64_pow2 (f64_sub (zoom_f64 (vp_zoom vp)) (f64_of_Z (tile_zoom tile_id))) in
  let size := f64_mul (f64_mul tile_size (f64_pow2 scale_offset)) scale in
  let tile_mercator := TileCoord_to_mercator tile_id in
  let screen_pos := mercator_into_screen_space projector tile_mercator in
  mkRect (px screen_pos) (py screen_pos) size size.

(** [HashMap<TileCoord, Option<Rectangle>>]: [None] marks a rejected tile. *)
Abbreviation Tiles := (gmap TileId (option Rectangle)).

(** [MapWidget::flood_tiles_inner], threading the map [tiles]. The result
    [None] is a panic or the exhaustion of [fuel], which bounds the depth
    of the recursion. *)
Fixpoint flood_tiles_inner (fuel : nat) (tile_size : Z) (vp : Viewpoint)
    (projector : Projector) (viewport : Rectangle) (tile_id : TileId)
    (tiles : Tiles) : option Tiles :=
  match fuel with
  | O => None
  | S fuel =>
      match tiles !! tile_id with
      | Some _ => Some tiles
      | None =>
          let rectangle := position_of_tile tile_size vp projector tile_id in
          if Rectangle_intersects viewport rectangle then
            let tiles := <[tile_id := Some rectangle]> tiles in
            match neighbors tile_id with
            | None => None
            | Some ns =>
                fold_left (fun acc nb =>
                  acc ≫= flood_tiles_inner fuel tile_size vp projector viewport nb)
                  ns (Some tiles)
            end
          else Some (<[tile_id := None]> tiles)
      end
  end.

(** The zoom level searched:
    [(zoom + scale_offset).min(max_zoom as f64).round() as u8]. *)
Definition flood_zoom (tile_size max_zoom : Z) (vp : Viewpoint) : Z :=
  let scale_offset := f64_log2 (f64_div (f64_of_Z BASE_SIZE) (f64_of_Z tile_size)) in
  let scaled_zoom :=
    f64_min (f64_add (zoom_f64 (vp_zoom vp)) scale_offset) (f64_of_Z max_zoom) in
  f64_as_u8 (f64_round scaled_zoom).

(** One level of recursion per tile of the grid at [zoom], and one more. *)
Definition flood_fuel (zoom : Z) : nat := S (Z.to_nat (2 ^ zoom * 2 ^ zoom)).

(** [MapWidget::flood_tiles]: the accepted tiles with their rectangles,
    drained in [map_to_list] order (standing for the [HashMap] order). *)
Definition flood_tiles (tile_size max_zoom : Z) (vp : Viewpoint)
    (viewport : Rectangle) (projector : Projector) : option (list (TileId * Rectangle)) :=
  let k := flood_zoom tile_size max_zoom vp in
  match Mercator_tile_id (vp_position vp) k with
  | None => None
  | Some central_tile_id =>
      match flood_tiles_inner (flood_fuel k) tile_size vp projector viewport
              central_tile_id ∅ with
      | None => None
      | Some tiles =>
          Some (omap (fun '(id, tile) => (fun r => (id, r)) <$> tile) (map_to_list tiles))
      end
  end.

(** A tile of the grid at [zoom]. *)
Definition tile_valid (zoom : Z) (t : TileId) : Prop :=
  tile_zoom t = zoom /\ 0 <= tile_x t < 2 ^ zoom /\ 0 <= tile_y t < 2 ^ zoom.

(** All tiles of the grid at [zoom]. *)
Definition grid (zoom : Z) : list TileId :=
  flat_map (fun x => map (fun y => mkTileId x y zoom) (seqZ 0 (2 ^ zoom)))
           (seqZ 0 (2 ^ zoom)).

(** The tiles of [l] not yet in [tiles]: the termination measure. *)
Fixpoint count_unvisited (tiles : Tiles) (l : list TileId) : nat :=
  match l with
  | [] => O
  | t :: l' =>
      match tiles !! t with
      | None => S (count_unvisited tiles l')
      | Some _ => count_unvisited tiles l'
      end
  end.

(** The map [M'] extends [M]. *)
Definition tiles_ext (M M' : Tiles) : Prop :=
  forall t v, M !! t = Some v -> M' !! t = Some v.

(** Every tile the search added to [M] to obtain [M'] is a tile of the
    grid at [k]; it is marked with its rectangle when that meets the
    viewport, and with [None] otherwise; the neighbours of an accepted
    tile have been visited. *)
Definition flood_new_ok (ts : Z) (vp : Viewpoint) (P : Projector) (V : Rectangle)
    (k : Z) (M M' : Tiles) : Prop :=
  forall t v, M !! t = None -> M' !! t = Some v ->
    tile_valid k t /\
    v = (if Rectangle_intersects V (position_of_tile ts vp P t)
         then Some (position_of_tile ts vp P t) else None) /\
    (forall r ns, v = Some r -> neighbors t = Some ns ->
       forall nb, nb ∈ ns -> is_Some (M' !! nb)).


(* ------------------------------------------------------------------ *)
(** ** More of the tile grid (src/tile.rs) *)

(** [TileId::valid]: [x < total_tiles(zoom) && y < total_tiles(zoom)];
    [None] is a panic of [total_tiles]. *)
Definition TileId_valid (t : TileId) : option bool :=
  match total_tiles (tile_zoom t) with
  | None => None
  | Some n => Some ((tile_x t <? n) && (tile_y t <? n))
  end.

(** [TileId::downsample]: [x / 2], [y / 2] and [zoom.checked_sub(1)?]. *)
Definition downsample (t : TileId) : option TileId :=
  match checked_sub (tile_zoom t) 1 with
  | None => None
  | Some zoom => Some (mkTileId (tile_x t / 2) (tile_y t / 2) zoom)
  end.



(* ------------------------------------------------------------------ *)
(** ** Geographic coordinates (src/position.rs) *)

(** [f64::sinh], [f64::atan], [f64::tan] and [f64::asinh] on exact reals;
    infinities and NaN as IEEE 754 prescribes. [tan] of a point where the
    cosine vanishes is never reached by a float argument. *)
Definition f64_sinh (a : f64) : f64 :=
  match a with Fin x => Fin (sinh x) | _ => a end.

Definition f64_atan (a : f64) : f64 :=
  match a with
  | Fin x => Fin (atan x) | PosInf => Fin (PI / 2) | NegInf => Fin (- (PI / 2))
  | NaN => NaN
  end.

Definition f64_tan (a : f64) : f64 :=
  match a with Fin x => Fin (tan x) | _ => NaN end.

Definition f64_asinh (a : f64) : f64 :=
  match a with Fin x => Fin (arcsinh x) | _ => a end.

(** [f64::to_degrees]: [self * (180.0f64 / consts::PI)]. *)
Definition f64_to_degrees (a : f64) : f64 := f64_mul a (Fin (180 / PI)).

(** [f64::to_radians]: [self * (consts::PI / 180.0)]. *)
Definition f64_to_radians (a : f64) : f64 := f64_mul a (Fin (PI / 180)).

(** [Mercator::as_geographic]. *)
Definition as_geographic (m : Mercator) : Geographic :=
  Geographic_new
    (f64_to_degrees (f64_mul (merc_x m) (Fin PI)))
    (f64_neg (f64_to_degrees (f64_atan (f64_sinh (f64_mul (merc_y m) (Fin PI)))))).

(** [Geographic::as_mercator]. *)
Definition as_mercator (g : Geographic) : Mercator :=
  Mercator_new
    (f64_div (f64_to_radians (lon g)) (Fin PI))
    (f64_div (f64_neg (f64_asinh (f64_tan (f64_to_radians (lat g))))) (Fin PI)).

(* ------------------------------------------------------------------ *)
(** ** More of the zoom (src/zoom.rs) *)

(** [Zoom::zoom_in]: [*self = Self::try_from(self.0 + 1.)?]. The new zoom
    and whether the result is [Ok(())]; on [Err(InvalidZoom)] the [?]
    returns before the assignment. *)
Definition zoom_in (self : Zoom) : Zoom * bool :=
  match Zoom_try_from (f64_add (zoom_f64 self) (Fin 1)) with
  | Some z => (z, true)
  | None => (self, false)
  end.

(** [Zoom::zoom_out]: [*self = Self::try_from(self.0 - 1.)?]. *)
Definition zoom_out (self : Zoom) : Zoom * bool :=
  match Zoom_try_from (f64_sub (zoom_f64 self) (Fin 1)) with
  | Some z => (z, true)
  | None => (self, false)
  end.

(** [Zoom::round]: [self.0.round() as u8]. *)
Definition Zoom_round (self : Zoom) : Z := f64_as_u8 (f64_round (zoom_f64 self)).

(* ------------------------------------------------------------------ *)
(** ** The viewpoint (src/viewpoint.rs) *)

(** [Viewpoint::position_in_viewport]; the [as f64] casts are the
    identity here. *)
Definition position_in_viewport (vp : Viewpoint) (position : Point)
    (bounds : Rectangle) : Mercator :=
  let cursor_offset := point_sub position (Rectangle_center bounds) in
  let center_pixel_space :=
    Mercator_into_pixel_space (vp_position vp) (zoom_f64 (vp_zoom vp)) in
  let adjusted_center := point_add center_pixel_space cursor_offset in
  Mercator_from_pixel_space adjusted_center (zoom_f64 (vp_zoom vp)).

(** [Viewpoint::zoom_on_point], returning the updated viewpoint. *)
Definition zoom_on_point (vp : Viewpoint) (zoom_amount : f64) (position : Point)
    (bounds : Rectangle) : Viewpoint :=
  let cursor_offset := point_sub position (Rectangle_center bounds) in
  let center_pixel_space :=
    Mercator_into_pixel_space (vp_position vp) (zoom_f64 (vp_zoom vp)) in
  let adjusted_center := point_add center_pixel_space cursor_offset in
  let position1 := Mercator_from_pixel_space adjusted_center (zoom_f64 (vp_zoom vp)) in
  let zoom1 := zoom_by (vp_zoom vp) zoom_amount in
  let center_pixel_space := Mercator_into_pixel_space position1 (zoom_f64 zoom1) in
  let adjusted_center := point_sub center_pixel_space cursor_offset in
  mkViewpoint (Mercator_from_pixel_space adjusted_center (zoom_f64 zoom1)) zoom1.

(** [Viewpoint::zoom_on_center]. *)
Definition zoom_on_center (vp : Viewpoint) (zoom_amount : f64) : Viewpoint :=
  mkViewpoint (vp_position vp) (zoom_by (vp_zoom vp) zoom_amount).

(* ------------------------------------------------------------------ *)
(** ** More of the draw cache (src/draw_cache.rs)

    The [TileCoord] keys are read through [zoom()] and [x_y()], the
    fields of the [TileId] that models them. *)

(** [DrawCache::new]. *)
Definition DrawCache_new : DrawCache := mkDrawCache ∅.

(** [DrawCache::remove]: the updated cache and the removed handle and
    allocation. The inner map of the zoom level stays, even when empty. *)
Definition DrawCache_remove (dc : DrawCache) (tile_id : TileId)
    : DrawCache * option (Handle * Allocation) :=
  match maps dc !! tile_zoom tile_id with
  | None => (dc, None)
  | Some inner =>
      let k := (tile_x tile_id, tile_y tile_id) in
      (mkDrawCache (<[tile_zoom tile_id := delete k inner]> (maps dc)),
       (fun data => (dd_handle data, dd_allocation data)) <$> inner !! k)
  end.

(** [DrawCache::contains_key]. *)
Definition DrawCache_contains_key (dc : DrawCache) (tile_id : TileId) : bool :=
  match maps dc !! tile_zoom tile_id with
  | Some inner => bool_decide (is_Some (inner !! (tile_x tile_id, tile_y tile_id)))
  | None => false
  end.

(** [DrawCache::insert]: [entry(zoom).or_insert_with(HashMap::new)]
    followed by an insert into the inner map. *)
Definition DrawCache_insert (dc : DrawCache) (tile_id : TileId) (handle : Handle)
    (center : f64 * f64) (size : f64) (allocation : Allocation) : DrawCache :=
  let inner := default ∅ (maps dc !! tile_zoom tile_id) in
  mkDrawCache (<[tile_zoom tile_id :=
                  <[(tile_x tile_id, tile_y tile_id) :=
                     mkDrawData handle center size allocation]> inner]> (maps dc)).

Definition Reqb (x y : R) : bool := if Req_EM_T x y then true else false.

(** [a == b] on floats: false as soon as one side is NaN. *)
Definition f64_eqb (a b : f64) : bool :=
  match a, b with
  | Fin x, Fin y => Reqb x y
  | PosInf, PosInf | NegInf, NegInf => true
  | _, _ => false
  end.

(** [PartialEq for DrawData]: handle, centre and size; not the
    allocation. *)
Definition DrawData_eq (self other : DrawData) : bool :=
  (dd_handle self =? dd_handle other)
  && f64_eqb (dd_center self).1 (dd_center other).1
  && f64_eqb (dd_center self).2 (dd_center other).2
  && f64_eqb (dd_size self) (dd_size other).

(** [PartialEq for DrawCache]; the early [return false]s of the loops
    give the conjunctions. *)
Definition DrawCache_eq (self other : DrawCache) : bool :=
  (size (maps self) =? size (maps other))%nat
  && forallb (fun '(zoom, map) =>
       match maps other !! zoom with
       | Some other_map =>
           (size map =? size other_map)%nat
           && forallb (fun '(coord, data) =>
                match other_map !! coord with
                | Some other_data => DrawData_eq other_data data
                | None => false
                end) (map_to_list map)
       | None => false
       end) (map_to_list (maps self)).

(** No float of a [DrawData] compared by [PartialEq] is NaN. *)
Definition DrawData_no_nan (d : DrawData) : Prop :=
  (dd_center d).1 <> NaN /\ (dd_center d).2 <> NaN /\ dd_size d <> NaN.

(* ------------------------------------------------------------------ *)
(** ** Queries of the tile cache (src/tile_cache.rs)

    [Entry::touch] writes [Instant::now()] into the [Cell] of the entry;
    the queries return the cache with that write. *)

Definition touch (now : Instant) (e : Entry) : Entry := mkEntry (state e) now.

Definition touch_in (now : Instant) (tc : TileCache) (id : TileId) (e : Entry)
    : TileCache :=
  mkTileCache (<[id := touch now e]> (cache tc)) (cleanup_timer tc).

(** [TileCache::should_load]. *)
Definition should_load (now : Instant) (tc : TileCache) (tile_id : TileId)
    : bool * TileCache :=
  match cache tc !! tile_id with
  | Some entry => (false, touch_in now tc tile_id entry)
  | None => (true, tc)
  end.

(** [TileCache::should_alloc]. *)
Definition should_alloc (now : Instant) (tc : TileCache) (tile_id : TileId)
    : bool * TileCache :=
  match cache tc !! tile_id with
  | Some entry =>
      (match state entry with StLoaded _ => true | _ => false end,
       touch_in now tc tile_id entry)
  | None => (false, tc)
  end.

(** [TileCache::get_drawable]. *)
Definition get_drawable (now : Instant) (tc : TileCache) (tile_id : TileId)
    : option (Handle * Allocation) * TileCache :=
  match cache tc !! tile_id with
  | Some entry =>
      match state entry with
      | StAllocated handle allocation =>
          (Some (handle, allocation), touch_in now tc tile_id entry)
      | _ => (None, tc)
      end
  | None => (None, tc)
  end.

(** The tile a message is about; [Prune] is about none. *)
Definition msg_tile (m : CacheMessage) : option TileId :=
  match m with
  | Load id | Loaded id _ | LoadFailed id | Allocate id | Allocated id _
  | AllocFailed id _ | Deallocate id => Some id
  | Prune => None
  end.

(** Messages handed to [TileCache::update] one after the other, each at
    its instant, as the runtime delivers them; the tasks in order, and
    [None] as soon as one update panics. *)
Fixpoint update_seq (tc : TileCache) (msgs : list (Instant * CacheMessage))
    : option (TileCache * list Task) :=
  match msgs with
  | [] => Some (tc, [])
  | (now, m) :: msgs' =>
      match update now tc m with
      | None => None
      | Some (tc1, t) =>
          match update_seq tc1 msgs' with
          | None => None
          | Some (tc2, ts) => Some (tc2, t :: ts)
          end
      end
  end.


(* ================================================================== *)
(** * Theorems *)

(** ** The tile cache *)

Ltac unfold_update :=
  unfold update; destruct (_ && _); cbn [cache cleanup_timer].

(** Lookup after the [Prune] arm: a key not in [removed] keeps its entry. *)
Lemma drop_keys_lookup (removed : list TileId) (m : gmap TileId Entry) id e :
  m !! id = Some e -> id ∉ removed -> drop_keys removed m !! id = Some e.
Proof.
  intros Hm Hn. unfold drop_keys. apply map_lookup_filter_Some. by split.
Qed.

(** The retain pass never removes a key whose entries all pass the
    closure, whatever the iteration order and the target. *)
Lemma prune_scan_keeps st target id :
  forall (es : list (TileId * Entry)) cnt,
    (forall v, (id, v) ∈ es -> retain_entry st id v = true) ->
    id ∉ prune_scan st target cnt es.
Proof.
  induction es as [|[k v] es IH]; intros cnt Hall; cbn [prune_scan].
  - apply not_elem_of_nil.
  - assert (Hrest : forall v', (id, v') ∈ es -> retain_entry st id v' = true).
    { intros v' Hv'. apply Hall. apply elem_of_cons; by right. }
    destruct (target <=? cnt)%Z; [by apply IH|].
    destruct (retain_entry st k v) eqn:Hr; [by apply IH|].
    apply not_elem_of_cons. split; [|by apply IH].
    intros ->. rewrite Hall in Hr; [discriminate|]. apply elem_of_cons; by left.
Qed.

Definition prune_protected (id : TileId) (e : Entry) : Prop :=
  (tile_zoom id < 6)%Z \/ state e = Loading \/ exists h, state e = Allocating h.

Lemma protected_retained st id e :
  prune_protected id e -> retain_entry st id e = true.
Proof.
  unfold retain_entry. intros [Hz | [Hs | [h Hs]]].
  - destruct (state e); try reflexivity; by rewrite (proj2 (Z.ltb_lt _ _) Hz).
  - by rewrite Hs.
  - by rewrite Hs.
Qed.

(** C2: the per-tile state machine of [TileCache::update]. *)
Theorem update_state_machine (now : Instant) (tc : TileCache) (id : TileId)
    (h : Handle) (a : Allocation) (e : Entry) :
  (cache tc !! id = None ->
     exists tc' t, update now tc (Load id) = Some (tc', t) /\
       cache tc' = <[id := Entry_new now Loading]> (cache tc)) /\
  (cache tc !! id = Some e ->
     exists tc' t, update now tc (Load id) = Some (tc', t) /\
       cache tc' = cache tc) /\
  (state e = Loading -> cache tc !! id = Some e ->
     exists tc' t, update now tc (Loaded id h) = Some (tc', t) /\
       cache tc' = <[id := Entry_new now (StLoaded h)]> (cache tc) /\
       Allocate id ∈ task_done t) /\
  (state e = Loading -> cache tc !! id = Some e ->
     exists tc' t, update now tc (LoadFailed id) = Some (tc', t) /\
       cache tc' = delete id (cache tc)) /\
  ((forall h', state e <> Allocating h' /\ state e <> StLoaded h') ->
     cache tc !! id = Some e ->
     exists tc' t, update now tc (Allocated id a) = Some (tc', t) /\
       cache tc' = cache tc).
Proof.
  split; [|split; [|split; [|split]]].
  - intros Hn. unfold_update; rewrite Hn; eauto.
  - intros Hs. unfold_update; rewrite Hs; eauto.
  - intros _ _. unfold_update; do 2 eexists; (split; [reflexivity|]);
      cbn; split; try reflexivity; set_solver.
  - intros He Hs. destruct e as [st lu]; cbn in He; subst st.
    unfold_update; rewrite Hs; eauto.
  - intros Hne Hs. destruct e as [st lu].
    unfold_update; rewrite Hs;
      destruct st as [|h'|h'|h' a']; cbn in Hne;
      try (destruct (Hne h') as [H1 H2]; congruence); eauto.
Qed.

Definition tile0 : TileId := mkTileId 0 0 0.
Definition tile7 : TileId := mkTileId 1 2 7.

Lemma update_state_machine_witness :
  (exists tc' t, update 1 (empty_cache 0) (Load tile0) = Some (tc', t) /\
     cache tc' = <[tile0 := Entry_new 1 Loading]> (cache (empty_cache 0))) /\
  (exists tc' t, update 1 (mkTileCache {[tile0 := mkEntry Loading 0]} 0)
                   (Loaded tile0 5) = Some (tc', t) /\
     cache tc' = <[tile0 := Entry_new 1 (StLoaded 5)]> {[tile0 := mkEntry Loading 0]} /\
     Allocate tile0 ∈ task_done t).
Proof.
  split.
  - apply (proj1 (update_state_machine 1 (empty_cache 0) tile0 5 3 (mkEntry Loading 0))).
    reflexivity.
  - exact (proj1 (proj2 (proj2 (update_state_machine 1
             (mkTileCache {[tile0 := mkEntry Loading 0]} 0) tile0 5 3
             (mkEntry Loading 0)))) eq_refl eq_refl).
Defined.

(** C4: [Prune] never removes an entry with zoom below 6 or in the
    [Loading] or [Allocating] state; it keeps it with the same entry. *)
Theorem prune_never_removes_protected (now : Instant) (tc tc' : TileCache)
    (t : Task) (id : TileId) (e : Entry) :
  update now tc Prune = Some (tc', t) ->
  cache tc !! id = Some e ->
  prune_protected id e ->
  cache tc' !! id = Some e.
Proof.
  intros Hu Hl Hp. revert Hu.
  unfold_update; cbv zeta;
    destruct (checked_sub _ PRUNE_THRESH) as [target|]; try discriminate;
    intros Hu; injection Hu as <- _; cbn [cache];
    (apply drop_keys_lookup; [exact Hl|]);
    (apply prune_scan_keeps; intros v Hv;
     apply elem_of_map_to_list in Hv; rewrite Hl in Hv; injection Hv as <-;
     by apply protected_retained).
Qed.

(** A cache over the prune threshold: 1025 stale tiles at zoom 10 and the
    zoom-0 tile, last used at time 0. *)
Definition big_cache : TileCache :=
  mkTileCache
    (<[tile0 := mkEntry (StLoaded 1) 0]>
       (list_to_map (map (fun i => (mkTileId i 0 10, mkEntry (StLoaded 2) 0))
                         (seqZ 0 1025))))
    0.

(** [Prune] runs to completion on a cache holding at least [PRUNE_THRESH]
    entries. *)
Lemma update_prune_runs (now : Instant) (tc : TileCache) :
  (PRUNE_THRESH <=? Z.of_nat (size (cache tc)))%Z = true ->
  exists tc' t, update now tc Prune = Some (tc', t).
Proof.
  intros Hs. unfold update, checked_sub.
  destruct (_ && _); cbn [cache cleanup_timer]; rewrite Hs; eauto.
Qed.

Lemma prune_never_removes_protected_witness :
  exists tc' t, update 100000 big_cache Prune = Some (tc', t) /\
    cache tc' !! tile0 = Some (mkEntry (StLoaded 1) 0).
Proof.
  assert (Hs : (PRUNE_THRESH <=? Z.of_nat (size (cache big_cache)))%Z = true)
    by (vm_compute; reflexivity).
  destruct (update_prune_runs 100000 big_cache Hs) as (tc' & t & Hu).
  exists tc', t. split; [exact Hu|].
  apply (prune_never_removes_protected 100000 big_cache tc' t tile0
           (mkEntry (StLoaded 1) 0) Hu).
  - vm_compute. reflexivity.
  - left. vm_compute. reflexivity.
Defined.

(** C5, counterexample: a [Loaded] result for a tile with no entry (here
    the empty cache) creates an entry instead of leaving the cache as it
    was. *)
Lemma stale_loaded_creates_entry :
  ~ (forall tc' t, update 0 (empty_cache 0) (Loaded tile7 5) = Some (tc', t) ->
       cache tc' = cache (empty_cache 0)).
Proof.
  intros Hclaim.
  assert (Hc := Hclaim _ _ eq_refl). cbn in Hc.
  apply (f_equal (fun m : gmap TileId Entry => m !! tile7)) in Hc.
  rewrite lookup_insert_eq, lookup_empty in Hc. discriminate.
Qed.

(** C5, amended: [Loaded] always stores a fresh [Loaded] entry holding the
    fetched handle, creating it when the tile has no entry and replacing
    any entry it has, and yields an [Allocate] follow-up. *)
Theorem loaded_always_stores (now : Instant) (tc : TileCache) (id : TileId)
    (h : Handle) :
  exists tc' t, update now tc (Loaded id h) = Some (tc', t) /\
    cache tc' = <[id := Entry_new now (StLoaded h)]> (cache tc) /\
    Allocate id ∈ task_done t.
Proof.
  unfold_update; do 2 eexists; (split; [reflexivity|]);
    cbn; split; try reflexivity; set_solver.
Qed.

(** C6, counterexample: at zoom 0 a successful allocation schedules no
    delayed [Deallocate]. *)
Lemma allocated_zoom0_no_dealloc :
  exists tc' t,
    update 0 (mkTileCache {[tile0 := mkEntry (Allocating 5) 0]} 0)
      (Allocated tile0 9) = Some (tc', t) /\
    cache tc' !! tile0 = Some (mkEntry (StAllocated 5 9) 0) /\
    (DEALLOC_DELAY, Deallocate tile0) ∉ task_delayed t.
Proof.
  do 2 eexists. split; [reflexivity|]. split.
  - cbn. by rewrite lookup_insert_eq.
  - cbn. apply not_elem_of_nil.
Qed.

(** C6, amended: [Allocated] on an [Allocating] or [Loaded] entry stores
    [Allocated] with the same handle; a delayed [Deallocate] after 100 ms
    is scheduled exactly when the tile's zoom is above 1; [Deallocate] on
    an [Allocated] entry returns it to [Loaded] with the same handle and
    the same last-used time. *)
Theorem allocated_then_deallocated (now : Instant) (tc : TileCache)
    (id : TileId) (h : Handle) (a : Allocation) (e : Entry) :
  ((state e = Allocating h \/ state e = StLoaded h) ->
   cache tc !! id = Some e ->
   exists tc' t, update now tc (Allocated id a) = Some (tc', t) /\
     cache tc' = <[id := mkEntry (StAllocated h a) now]> (cache tc) /\
     ((1 < tile_zoom id)%Z -> task_delayed t = [(DEALLOC_DELAY, Deallocate id)]) /\
     ((tile_zoom id <= 1)%Z -> task_delayed t = [])) /\
  (state e = StAllocated h a ->
   cache tc !! id = Some e ->
   exists tc' t, update now tc (Deallocate id) = Some (tc', t) /\
     cache tc' = <[id := mkEntry (StLoaded h) (last_used e)]> (cache tc)).
Proof.
  destruct e as [st lu]; cbn [state last_used]. split.
  - intros Hst Hl.
    assert (Hd : forall c0, task_delayed (TaskBatch [c0; if (1 <? tile_zoom id)%Z
                   then TaskDelayed DEALLOC_DELAY (Deallocate id) else TaskNone])
                 = task_delayed c0 ++ (if (1 <? tile_zoom id)%Z
                     then [(DEALLOC_DELAY, Deallocate id)] else []) ++ []).
    { intros c0. cbn. by destruct (1 <? tile_zoom id)%Z. }
    unfold_update; rewrite Hl; destruct Hst as [-> | ->].
    all: do 2 eexists; (split; [reflexivity|]).
    all: (split; [reflexivity|]); rewrite Hd; cbn [task_delayed app].
    all: split; intros Hz.
    all: first [rewrite (proj2 (Z.ltb_lt _ _) Hz) | rewrite (proj2 (Z.ltb_ge _ _) Hz)].
    all: reflexivity.
  - intros -> Hl. unfold_update; rewrite Hl; eauto.
Qed.

Lemma allocated_then_deallocated_witness :
  exists tc' t,
    update 3 (mkTileCache {[tile7 := mkEntry (Allocating 5) 0]} 0)
      (Allocated tile7 9) = Some (tc', t) /\
    cache tc' = <[tile7 := mkEntry (StAllocated 5 9) 3]> {[tile7 := mkEntry (Allocating 5) 0]} /\
    task_delayed t = [(DEALLOC_DELAY, Deallocate tile7)].
Proof.
  destruct (proj1 (allocated_then_deallocated 3
              (mkTileCache {[tile7 := mkEntry (Allocating 5) 0]} 0)
              tile7 5 9 (mkEntry (Allocating 5) 0))
              (or_introl eq_refl) ltac:(cbn [cache]; by rewrite lookup_singleton_eq))
    as (tc' & t & Hu & Hc & Hz & _).
  exists tc', t. split; [exact Hu|]. split; [exact Hc|]. apply Hz. reflexivity.
Defined.

(** C9, failing input: [Prune] on a cache holding fewer than
    [PRUNE_THRESH] entries (here the empty cache) underflows
    [start_size - PRUNE_THRESH] and panics; so does [TileId::new] at zoom
    32, where [2u32.pow(32)] overflows. *)
Theorem prune_small_cache_panics :
  update 0 (empty_cache 0) Prune = None /\ TileId_new 0 0 32 = None.
Proof. split; reflexivity. Qed.

(** ** Clamping constructors and zoom *)

Ltac rdec :=
  unfold Rltb, Rleb in *;
  repeat match goal with
         | |- context [Rlt_dec ?a ?b] => destruct (Rlt_dec a b)
         | |- context [Rle_dec ?a ?b] => destruct (Rle_dec a b)
         | H : context [Rlt_dec ?a ?b] |- _ => destruct (Rlt_dec a b)
         | H : context [Rle_dec ?a ?b] |- _ => destruct (Rle_dec a b)
         end.

(** An [f64] that is a number within [[lo, hi]]. *)
Definition f64_within (v : f64) (lo hi : R) : Prop :=
  exists r, v = Fin r /\ (lo <= r <= hi)%R.

Lemma f64_clamp_within (v : f64) (l h : R) :
  (l <= h)%R -> v <> NaN -> f64_within (f64_clamp v (Fin l) (Fin h)) l h.
Proof.
  intros Hlh Hv. unfold f64_clamp, f64_within.
  destruct v as [x| | |]; cbn [f64_lt]; try congruence.
  - rdec; cbn [f64_lt]; rdec; eexists; (split; [reflexivity|]); lra.
  - eexists; split; [reflexivity|]; lra.
  - rdec; eexists; (split; [reflexivity|]); lra.
Qed.

(** C7, counterexample: from zoom 25, [zoom_by(2.)] leaves the zoom at 25
    instead of clamping to 26. *)
Lemma zoom_by_does_not_clamp :
  zoom_by (mkZoom (Fin 25)) (Fin 2) = mkZoom (Fin 25) /\
  zoom_by (mkZoom (Fin 25)) (Fin 2) <> mkZoom (Fin 26).
Proof.
  assert (H : zoom_by (mkZoom (Fin 25)) (Fin 2) = mkZoom (Fin 25)).
  { unfold zoom_by, Zoom_try_from. cbn [zoom_f64 f64_add f64_le].
    rdec; try lra; reflexivity. }
  split; [exact H|]. rewrite H. intros Heq. injection Heq. lra.
Qed.

(** C7, amended: [zoom_by(a)] moves a zoom [z] to [z + a] when [z + a]
    lies in [[2, 26]] and leaves it unchanged otherwise (it rejects, it
    does not clamp). *)
Theorem zoom_by_spec (z a : R) :
  ((2 <= z + a <= 26)%R -> zoom_by (mkZoom (Fin z)) (Fin a) = mkZoom (Fin (z + a))) /\
  (~ (2 <= z + a <= 26)%R -> zoom_by (mkZoom (Fin z)) (Fin a) = mkZoom (Fin z)).
Proof.
  unfold zoom_by, Zoom_try_from. cbn [zoom_f64 f64_add f64_le].
  split; intros H; rdec; cbn; try reflexivity; lra.
Qed.

Lemma zoom_by_spec_witness :
  zoom_by (mkZoom (Fin 10)) (Fin 3) = mkZoom (Fin (10 + 3)) /\
  zoom_by (mkZoom (Fin 25)) (Fin 3) = mkZoom (Fin 25).
Proof.
  split.
  - apply (proj1 (zoom_by_spec 10 3)). lra.
  - apply (proj2 (zoom_by_spec 25 3)). lra.
Defined.

(** C8, counterexample: [Mercator::new(NaN, 0.)] keeps a NaN easting,
    which is not in [[-1, 1]]. *)
Lemma mercator_new_nan :
  merc_x (Mercator_new NaN (Fin 0)) = NaN /\
  ~ f64_within (merc_x (Mercator_new NaN (Fin 0))) (-1) 1.
Proof.
  split; [reflexivity|]. intros (r & Hr & _). discriminate.
Qed.

(** C8, amended: for inputs that are not NaN (infinities included),
    [Mercator::new] yields coordinates in [[-1, 1]] and [Geographic::new]
    a longitude in [[-180, 180]] and a latitude in [[-85.05, 85.05]]
    (within [[-90, 90]]); [Zoom::try_from] fails exactly for values that
    are not numbers in [[2, 26]], and accepts 2 and 26. *)
Theorem constructors_clamp (east north : f64) :
  (east <> NaN -> north <> NaN ->
     f64_within (merc_x (Mercator_new east north)) (-1) 1 /\
     f64_within (merc_y (Mercator_new east north)) (-1) 1) /\
  (east <> NaN -> north <> NaN ->
     f64_within (lon (Geographic_new east north)) (-180) 180 /\
     f64_within (lat (Geographic_new east north)) (- LAT_LIMIT) LAT_LIMIT /\
     (- 90 <= - LAT_LIMIT /\ LAT_LIMIT <= 90)%R) /\
  (Zoom_try_from east = None <-> ~ f64_within east 2 26) /\
  Zoom_try_from (Fin 2) = Some (mkZoom (Fin 2)) /\
  Zoom_try_from (Fin 26) = Some (mkZoom (Fin 26)).
Proof.
  unfold LAT_LIMIT. split; [|split; [|split; [|split]]].
  - intros He Hn. cbn [merc_x merc_y Mercator_new].
    split; apply f64_clamp_within; auto; lra.
  - intros He Hn. cbn [lon lat Geographic_new].
    split; [|split]; [apply f64_clamp_within; auto; lra
                     |apply f64_clamp_within; auto; lra|lra].
  - unfold Zoom_try_from, f64_within.
    destruct east as [x| | |]; cbn [f64_le andb negb]; rdec; cbn;
      split; intros H; try discriminate; try reflexivity;
      try (intros (r' & Hr & _); discriminate);
      try (intros (r' & Hr & Hb); injection Hr as <-; lra);
      try (destruct H as (r' & Hr & Hb); injection Hr as <-; lra);
      try (exfalso; apply H; eexists; split; [reflexivity|]; lra).
  - unfold Zoom_try_from. cbn [f64_le]. rdec; try lra; reflexivity.
  - unfold Zoom_try_from. cbn [f64_le]. rdec; try lra; reflexivity.
Qed.

Lemma constructors_clamp_witness :
  f64_within (merc_x (Mercator_new (Fin 3) PosInf)) (-1) 1 /\
  f64_within (lat (Geographic_new (Fin 3) (Fin 100))) (- LAT_LIMIT) LAT_LIMIT /\
  (Zoom_try_from (Fin 27) = None <-> ~ f64_within (Fin 27) 2 26).
Proof.
  split; [|split].
  - apply (proj1 (constructors_clamp (Fin 3) PosInf)); discriminate.
  - apply (proj1 (proj2 (proj1 (proj2 (constructors_clamp (Fin 3) (Fin 100)))
             ltac:(discriminate) ltac:(discriminate)))).
  - exact (proj1 (proj2 (proj2 (constructors_clamp (Fin 27) (Fin 0))))).
Defined.

(** ** Draw cache iteration *)

Lemma flat_map_keys {A B} (m : gmap Z A) `{Inhabited A} (f : A -> list B) :
  forall l : list (Z * A),
    (forall z a, (z, a) ∈ l -> m !! z = Some a) ->
    flat_map (fun z => f (m !!! z)) (map fst l) = flat_map (fun kv => f kv.2) l.
Proof.
  induction l as [|[z a] l IH]; intros Hl; [reflexivity|].
  cbn [map flat_map fst snd].
  rewrite (lookup_total_correct m z a) by (apply Hl, elem_of_cons; by left).
  f_equal. apply IH. intros z' a' Hin. apply Hl, elem_of_cons. by right.
Qed.

(** C10: [iter_tiles] yields the values of the inner maps zoom by zoom,
    over the zoom keys in ascending order, each zoom once; altogether
    exactly the stored placements. *)
Theorem iter_tiles_ascending_zoom (dc : DrawCache) :
  exists zooms : list Z,
    Sorted Z.le zooms /\ NoDup zooms /\
    zooms ≡ₚ map fst (map_to_list (maps dc)) /\
    iter_tiles dc = flat_map (fun z => map snd (map_to_list (maps dc !!! z))) zooms /\
    iter_tiles dc ≡ₚ flat_map (fun kv => map snd (map_to_list kv.2)) (map_to_list (maps dc)).
Proof.
  exists (merge_sort Z.le (map fst (map_to_list (maps dc)))).
  assert (Hp := merge_sort_Permutation Z.le (map fst (map_to_list (maps dc)))).
  split; [apply Sorted_merge_sort; intros x y; lia|].
  split; [rewrite Hp; apply NoDup_fst_map_to_list|].
  split; [exact Hp|]. split; [reflexivity|].
  unfold iter_tiles. cbv zeta. rewrite Hp.
  rewrite (flat_map_keys (maps dc) (fun a => map snd (map_to_list a))); [reflexivity|].
  intros z a Hin. by apply elem_of_map_to_list.
Qed.

(** ** Projection round trips *)

(** Evaluates the projector transforms on finite inputs, leaving divisions,
    clamps and powers in place. *)
Ltac simpl_proj :=
  cbv beta iota zeta delta [screen_space_into_mercator mercator_into_screen_space
    pixel_space_into_mercator screen_space_into_pixel_space
    pixel_space_into_screen_space mercator_into_pixel_space
    Mercator_from_pixel_space Mercator_into_pixel_space
    Viewpoint_into_pixel_space pixels_half_width point_round_ceil
    round_ceil Rectangle_center point_add point_sub Mercator_new
    f64_sub f64_add f64_neg f64_mul f64_pow2 f64_floor
    f64_of_Z merc_x merc_y px py rx ry rwidth rheight viewpoint bounds
    vp_position vp_zoom zoom_f64].

Lemma Rpower2_pos (x : R) : (0 < Rpower 2 x)%R.
Proof. unfold Rpower. apply exp_pos. Qed.

Lemma phw_pos (z : R) : (0 < Rpower 2 (z - 1) * IZR BASE_SIZE)%R.
Proof.
  apply Rmult_lt_0_compat; [apply Rpower2_pos|]. unfold BASE_SIZE. lra.
Qed.

(** Clamping a number already within the bounds returns it. *)
Lemma f64_clamp_id (x l h : R) :
  (l <= x <= h)%R -> f64_clamp (Fin x) (Fin l) (Fin h) = Fin x.
Proof. intros Hx. unfold f64_clamp. cbn [f64_lt]. rdec; try lra; reflexivity. Qed.

Lemma f64_clamp_eq (e x l h : R) :
  e = x -> (l <= x <= h)%R -> f64_clamp (Fin e) (Fin l) (Fin h) = Fin x.
Proof. intros -> Hx. by apply f64_clamp_id. Qed.

Lemma f64_div_pos (x y : R) : (0 < y)%R -> f64_div (Fin x) (Fin y) = Fin (x / y).
Proof. intros Hy. unfold f64_div. rdec; try lra; reflexivity. Qed.




Lemma Rfloor_eq (n : Z) (x : R) : (IZR n <= x < IZR n + 1)%R -> Rfloor x = n.
Proof.
  intros [H1 H2]. unfold Rfloor. destruct (base_Int_part x) as [B1 B2].
  assert (A1 : (IZR n < IZR (Int_part x + 1))%R) by (rewrite plus_IZR; lra).
  assert (A2 : (IZR (Int_part x) < IZR (n + 1))%R) by (rewrite plus_IZR; lra).
  apply lt_IZR in A1, A2. lia.
Qed.





(** ** The flood-fill visibility search *)

Lemma count_unvisited_ext (M M' : Tiles) (l : list TileId) :
  (forall t, is_Some (M !! t) -> is_Some (M' !! t)) ->
  (count_unvisited M' l <= count_unvisited M l)%nat.
Proof.
  intros Hext. induction l as [|t l IH]; cbn [count_unvisited]; [lia|].
  destruct (M !! t) eqn:E1, (M' !! t) eqn:E2; try lia.
  destruct (Hext t) as [w Hw]; [by eexists|]. congruence.
Qed.

Lemma count_unvisited_insert (M : Tiles) (l : list TileId) (t : TileId) v :
  t ∈ l -> M !! t = None ->
  (count_unvisited (<[t := v]> M) l < count_unvisited M l)%nat.
Proof.
  intros Hin HM. induction l as [|t' l IH]; [by apply not_elem_of_nil in Hin|].
  assert (Hle := count_unvisited_ext M (<[t := v]> M) l).
  cbn [count_unvisited]. destruct (decide (t' = t)) as [->|Hne].
  - rewrite lookup_insert_eq, HM.
    enough (forall u, is_Some (M !! u) -> is_Some (<[t := v]> M !! u)) by (specialize (Hle H); lia).
    intros u [w Hw]. destruct (decide (u = t)) as [->|]; [by rewrite lookup_insert_eq; eexists|].
    rewrite lookup_insert_ne by done. by eexists.
  - rewrite lookup_insert_ne by done.
    apply elem_of_cons in Hin as [->|Hin]; [done|].
    specialize (IH Hin). destruct (M !! t'); lia.
Qed.

Lemma count_unvisited_le (M : Tiles) (l : list TileId) :
  (count_unvisited M l <= length l)%nat.
Proof. induction l as [|t l IH]; cbn [count_unvisited length]; [lia|]. destruct (M !! t); lia. Qed.

Lemma grid_complete (k : Z) (t : TileId) : tile_valid k t -> t ∈ grid k.
Proof.
  destruct t as [x y z]. intros (Hz & Hx & Hy); cbn in *. subst z.
  unfold grid. apply list_elem_of_In, in_flat_map. exists x.
  split; [apply list_elem_of_In, elem_of_seqZ; lia|].
  apply in_map_iff. exists y.
  split; [done|]. apply list_elem_of_In, elem_of_seqZ; lia.
Qed.

Lemma length_grid (k : Z) : 0 <= k -> length (grid k) = Z.to_nat (2 ^ k * 2 ^ k).
Proof.
  intros Hk. unfold grid.
  assert (Hn : 0 < 2 ^ k) by (apply Z.pow_pos_nonneg; lia).
  assert (forall l : list Z, length (flat_map (fun x => map (fun y => mkTileId x y k) (seqZ 0 (2 ^ k))) l)
            = (length l * Z.to_nat (2 ^ k))%nat) as ->.
  { induction l as [|x l IH]; cbn; [done|].
    rewrite length_app, length_map, length_seqZ, IH. lia. }
  rewrite length_seqZ, Z2Nat.inj_mul; lia.
Qed.

Lemma total_tiles_ok (k : Z) : 0 <= k <= 31 -> total_tiles k = Some (2 ^ k).
Proof.
  intros Hk. unfold total_tiles, u32_pow2, U32_LIMIT.
  replace ((0 <=? k) && (2 ^ k <? 2 ^ 32)) with true; [done|].
  symmetry. apply andb_true_intro; split; [apply Z.leb_le; lia|].
  apply Z.ltb_lt, Z.pow_lt_mono_r; lia.
Qed.

Lemma neighbors_spec (k : Z) (t : TileId) :
  0 <= k <= 31 -> tile_valid k t ->
  exists ns, neighbors t = Some ns /\
    (forall nb, nb ∈ ns -> tile_valid k nb) /\
    (tile_x t + 1 < 2 ^ k -> mkTileId (tile_x t + 1) (tile_y t) k ∈ ns) /\
    (0 < tile_x t -> mkTileId (tile_x t - 1) (tile_y t) k ∈ ns) /\
    (tile_y t + 1 < 2 ^ k -> mkTileId (tile_x t) (tile_y t + 1) k ∈ ns) /\
    (0 < tile_y t -> mkTileId (tile_x t) (tile_y t - 1) k ∈ ns).
Proof.
  intros Hk Hv. destruct t as [x y z]. destruct Hv as (Hz & Hx & Hy); cbn in *. subst z.
  unfold neighbors, tile_east, tile_south, tile_north, tile_west.
  cbn [tile_x tile_y tile_zoom]. rewrite total_tiles_ok by done.
  unfold checked_sub. rewrite (proj2 (Z.leb_le 1 (2 ^ k))) by lia.
  eexists; split; [reflexivity|].
  destruct (Z.leb_spec 1 y), (Z.ltb_spec x (2 ^ k - 1)), (Z.ltb_spec y (2 ^ k - 1)),
    (Z.leb_spec 1 x); cbn [opt_list app];
    (split; [intros nb Hin; set_unfold in Hin; intuition; subst; unfold tile_valid; cbn; lia|]);
    repeat split; intros; set_unfold; try lia; intuition (f_equal; lia).
Qed.

Section FloodSearch.
Variables (ts : Z) (vp : Viewpoint) (P : Projector) (V : Rectangle) (k : Z).
Hypothesis Hk : 0 <= k <= 31.

Lemma tiles_ext_trans (M1 M2 M3 : Tiles) :
  tiles_ext M1 M2 -> tiles_ext M2 M3 -> tiles_ext M1 M3.
Proof. intros H1 H2 t v Hv. by apply H2, H1. Qed.

Lemma tiles_ext_dom (M M' : Tiles) :
  tiles_ext M M' -> forall t, is_Some (M !! t) -> is_Some (M' !! t).
Proof. intros He t [v Hv]. exists v. by apply He. Qed.

Lemma flood_new_ok_trans (M1 M2 M3 : Tiles) :
  tiles_ext M1 M2 -> tiles_ext M2 M3 ->
  flood_new_ok ts vp P V k M1 M2 -> flood_new_ok ts vp P V k M2 M3 ->
  flood_new_ok ts vp P V k M1 M3.
Proof.
  intros E12 E23 N12 N23 t v H1 H3.
  destruct (M2 !! t) as [w|] eqn:H2.
  - assert (w = v) as <- by (apply E23 in H2; congruence).
    destruct (N12 t w H1 H2) as (Hv & Hw & Hn). split; [done|]. split; [done|].
    intros r ns Hr Hns nb Hnb. eapply tiles_ext_dom; [exact E23|]. by apply (Hn r ns).
  - by apply N23.
Qed.

Lemma flood_fold_spec (fuel : nat) :
  (forall M t, tile_valid k t -> (count_unvisited M (grid k) < fuel)%nat ->
     exists M', flood_tiles_inner fuel ts vp P V t M = Some M' /\
       tiles_ext M M' /\ is_Some (M' !! t) /\ flood_new_ok ts vp P V k M M') ->
  forall ns M, (forall nb, nb ∈ ns -> tile_valid k nb) ->
    (count_unvisited M (grid k) < fuel)%nat ->
    exists M', fold_left (fun acc nb => acc ≫= flood_tiles_inner fuel ts vp P V nb) ns (Some M)
               = Some M' /\
      tiles_ext M M' /\ (forall nb, nb ∈ ns -> is_Some (M' !! nb)) /\
      flood_new_ok ts vp P V k M M'.
Proof.
  intros IH ns. induction ns as [|nb ns IHns]; intros M Hv Hc.
  - exists M. split; [done|]. split; [by intros ??|].
    split; [intros nb Hnb; by apply not_elem_of_nil in Hnb|].
    intros t v H1 H2. congruence.
  - cbn [fold_left]. cbn [mbind option_bind].
    destruct (IH M nb) as (M1 & Hf & E1 & S1 & N1); [apply Hv; by left|done|].
    rewrite Hf.
    destruct (IHns M1) as (M2 & Hf2 & E2 & S2 & N2).
    { intros nb' Hnb'. apply Hv. by right. }
    { eapply Nat.le_lt_trans; [|exact Hc]. apply count_unvisited_ext, tiles_ext_dom, E1. }
    exists M2. split; [exact Hf2|]. split; [eapply tiles_ext_trans; eauto|].
    split; [|eapply flood_new_ok_trans; eauto].
    intros nb' Hnb'. apply elem_of_cons in Hnb' as [->|Hnb'].
    + eapply tiles_ext_dom; eauto.
    + by apply S2.
Qed.

Lemma flood_inner_spec (fuel : nat) :
  forall M t, tile_valid k t -> (count_unvisited M (grid k) < fuel)%nat ->
    exists M', flood_tiles_inner fuel ts vp P V t M = Some M' /\
      tiles_ext M M' /\ is_Some (M' !! t) /\ flood_new_ok ts vp P V k M M'.
Proof.
  induction fuel as [|fuel IH]; intros M t Hv Hc; [lia|].
  cbn [flood_tiles_inner].
  destruct (M !! t) as [w|] eqn:Ht.
  { exists M. split; [done|]. split; [by intros ??|]. split; [by eexists|].
    intros u v H1 H2. congruence. }
  cbv zeta.
  assert (Hin := grid_complete k t Hv).
  destruct (Rectangle_intersects V (position_of_tile ts vp P t)) eqn:Hi.
  - destruct (neighbors_spec k t Hk Hv) as (ns & Hns & Hnv & _). rewrite Hns.
    set (r := position_of_tile ts vp P t).
    assert (Hlt := count_unvisited_insert M (grid k) t (Some r) Hin Ht).
    destruct (flood_fold_spec fuel IH ns (<[t := Some r]> M)) as (M2 & Hf & E2 & S2 & N2);
      [exact Hnv|lia|].
    rewrite Hf. exists M2.
    assert (E1 : tiles_ext M (<[t := Some r]> M)).
    { intros u v Hu. rewrite lookup_insert_ne; [done|]. intros ->. congruence. }
    split; [done|]. split; [eapply tiles_ext_trans; eauto|].
    split; [apply (tiles_ext_dom _ _ E2); rewrite lookup_insert_eq; by eexists|].
    intros u v H1 H2. destruct (decide (u = t)) as [->|Hne].
    + assert (v = Some r) as ->.
      { specialize (E2 t (Some r)). rewrite lookup_insert_eq in E2.
        specialize (E2 eq_refl). congruence. }
      split; [done|]. split; [by rewrite Hi|].
      intros r' ns' _ Hns' nb Hnb. rewrite Hns in Hns'. injection Hns' as <-. by apply S2.
    + apply N2; [|done]. by rewrite lookup_insert_ne.
  - exists (<[t := None]> M). split; [done|].
    split; [intros u v Hu; rewrite lookup_insert_ne; [done|]; intros ->; congruence|].
    split; [rewrite lookup_insert_eq; by eexists|].
    intros u v H1 H2. destruct (decide (u = t)) as [->|Hne].
    + rewrite lookup_insert_eq in H2. injection H2 as <-.
      split; [done|]. split; [by rewrite Hi|]. intros ????; discriminate.
    + rewrite lookup_insert_ne in H2 by done. congruence.
Qed.

End FloodSearch.

Lemma conv_between (f : Z -> bool) (a b x : Z) :
  (forall x1 x2 x, x1 <= x <= x2 -> f x1 = true -> f x2 = true -> f x = true) ->
  f a = true -> f b = true -> Z.min a b <= x <= Z.max a b -> f x = true.
Proof.
  intros Hc Ha Hb Hx. destruct (Z.le_ge_cases a b).
  - rewrite Z.min_l, Z.max_r in Hx by lia. eauto.
  - rewrite Z.min_r, Z.max_l in Hx by lia. eauto.
Qed.

Section FloodComplete.
Variables (ts : Z) (vp : Viewpoint) (P : Projector) (V : Rectangle) (k : Z).
Hypothesis Hk : 0 <= k <= 31.
Variable M : Tiles.
Hypothesis HM : flood_new_ok ts vp P V k ∅ M.

Lemma flood_step (t t' : TileId) :
  is_Some (M !! t) -> Rectangle_intersects V (position_of_tile ts vp P t) = true ->
  (forall ns, neighbors t = Some ns -> t' ∈ ns) -> is_Some (M !! t').
Proof.
  intros [v Hv] Ha Hn.
  destruct (HM t v (lookup_empty t) Hv) as (Hval & Hvv & Hnb).
  destruct (neighbors_spec k t Hk Hval) as (ns & Hns & _).
  rewrite Ha in Hvv. apply (Hnb _ ns Hvv Hns). by apply Hn.
Qed.

Lemma flood_walk_x (d : nat) :
  forall x1 x2 y, Z.abs_nat (x2 - x1) = d -> is_Some (M !! mkTileId x1 y k) ->
  (forall x, Z.min x1 x2 <= x <= Z.max x1 x2 ->
     tile_valid k (mkTileId x y k) /\
     Rectangle_intersects V (position_of_tile ts vp P (mkTileId x y k)) = true) ->
  is_Some (M !! mkTileId x2 y k).
Proof.
  induction d as [|d IH]; intros x1 x2 y Hd Hs Hr.
  - replace x2 with x1 by lia. exact Hs.
  - destruct (Hr x1) as [Hv1 Ha1]; [lia|].
    destruct (neighbors_spec k _ Hk Hv1) as (ns & Hns & _ & He & Hw & _); cbn in He, Hw.
    destruct (Z.lt_ge_cases x1 x2).
    + apply (IH (x1 + 1)); [lia| |intros x Hx; apply Hr; lia].
      apply (flood_step _ _ Hs Ha1). intros ns' Hns'. rewrite Hns in Hns'.
      injection Hns' as <-. apply He. destruct (Hr (x1 + 1)) as [[_ [Hx _]] _]; [lia|].
      cbn in Hx. lia.
    + apply (IH (x1 - 1)); [lia| |intros x Hx; apply Hr; lia].
      apply (flood_step _ _ Hs Ha1). intros ns' Hns'. rewrite Hns in Hns'.
      injection Hns' as <-. apply Hw. destruct (Hr (x1 - 1)) as [[_ [Hx _]] _]; [lia|].
      cbn in Hx. lia.
Qed.

Lemma flood_walk_y (d : nat) :
  forall x y1 y2, Z.abs_nat (y2 - y1) = d -> is_Some (M !! mkTileId x y1 k) ->
  (forall y, Z.min y1 y2 <= y <= Z.max y1 y2 ->
     tile_valid k (mkTileId x y k) /\
     Rectangle_intersects V (position_of_tile ts vp P (mkTileId x y k)) = true) ->
  is_Some (M !! mkTileId x y2 k).
Proof.
  induction d as [|d IH]; intros x y1 y2 Hd Hs Hr.
  - replace y2 with y1 by lia. exact Hs.
  - destruct (Hr y1) as [Hv1 Ha1]; [lia|].
    destruct (neighbors_spec k _ Hk Hv1) as (ns & Hns & _ & _ & _ & Hs' & Hn); cbn in Hs', Hn.
    destruct (Z.lt_ge_cases y1 y2).
    + apply (IH x (y1 + 1)); [lia| |intros y Hy; apply Hr; lia].
      apply (flood_step _ _ Hs Ha1). intros ns' Hns'. rewrite Hns in Hns'.
      injection Hns' as <-. apply Hs'. destruct (Hr (y1 + 1)) as [[_ [_ Hy]] _]; [lia|].
      cbn in Hy. lia.
    + apply (IH x (y1 - 1)); [lia| |intros y Hy; apply Hr; lia].
      apply (flood_step _ _ Hs Ha1). intros ns' Hns'. rewrite Hns in Hns'.
      injection Hns' as <-. apply Hn. destruct (Hr (y1 - 1)) as [[_ [_ Hy]] _]; [lia|].
      cbn in Hy. lia.
Qed.

(** If acceptance is a product of two interval conditions, one per axis,
    the search from an accepted tile finds every accepted tile. *)
Lemma flood_complete (s : TileId) (ax ay : Z -> bool) :
  is_Some (M !! s) -> tile_valid k s ->
  Rectangle_intersects V (position_of_tile ts vp P s) = true ->
  (forall x y, tile_valid k (mkTileId x y k) ->
     Rectangle_intersects V (position_of_tile ts vp P (mkTileId x y k)) = ax x && ay y) ->
  (forall x1 x2 x, x1 <= x <= x2 -> ax x1 = true -> ax x2 = true -> ax x = true) ->
  (forall y1 y2 y, y1 <= y <= y2 -> ay y1 = true -> ay y2 = true -> ay y = true) ->
  forall t, tile_valid k t -> Rectangle_intersects V (position_of_tile ts vp P t) = true ->
    is_Some (M !! t).
Proof.
  intros Hs Hsv Hsa Hdec Hcx Hcy t Htv Hta.
  destruct s as [sx sy sz], t as [tx ty tz].
  destruct Hsv as (Hsz & Hsx & Hsy), Htv as (Htz & Htx & Hty); cbn in *. subst sz tz.
  rewrite Hdec in Hsa by (repeat split; cbn; lia).
  rewrite Hdec in Hta by (repeat split; cbn; lia).
  apply andb_true_iff in Hsa as [Hax1 Hay1], Hta as [Hax2 Hay2].
  apply (flood_walk_y (Z.abs_nat (ty - sy)) tx sy ty eq_refl).
  - apply (flood_walk_x (Z.abs_nat (tx - sx)) sx tx sy eq_refl Hs).
    intros x Hx. assert (Hv : tile_valid k (mkTileId x sy k)) by (repeat split; cbn; lia).
    split; [done|]. rewrite Hdec by done. apply andb_true_iff. split; [|done].
    by apply (conv_between ax sx tx).
  - intros y Hy. assert (Hv : tile_valid k (mkTileId tx y k)) by (repeat split; cbn; lia).
    split; [done|]. rewrite Hdec by done. apply andb_true_iff. split; [done|].
    by apply (conv_between ay sy ty).
Qed.

End FloodComplete.

Lemma IZR_pow2 (k : Z) : 0 <= k -> IZR (2 ^ k) = Rpower 2 (IZR k).
Proof.
  intros Hk. rewrite <- (Z2Nat.id k) at 1 2 by lia.
  rewrite <- INR_IZR_INZ, Rpower_pow by lra.
  rewrite pow_IZR. reflexivity.
Qed.

Lemma Rpower2_log2 (y : R) : (0 < y)%R -> Rpower 2 (ln y / ln 2) = y.
Proof.
  intros Hy. unfold Rpower.
  assert (Hl : (0 < ln 2)%R) by (rewrite <- ln_1; apply ln_increasing; lra).
  replace (ln y / ln 2 * ln 2)%R with (ln y) by (field; lra).
  by apply exp_ln.
Qed.

Lemma Rpower2_split (z kk : R) :
  (Rpower 2 (z - 1) * 2 = Rpower 2 (z - kk) * Rpower 2 kk)%R.
Proof.
  rewrite <- (Rpower_1 2) at 2 by lra. rewrite <- !Rpower_plus. f_equal. ring.
Qed.

Lemma Rltb_true (a b : R) : Rltb a b = true -> (a < b)%R.
Proof. unfold Rltb. by destruct (Rlt_dec a b). Qed.

Lemma div_01 (q N : R) : (0 < N)%R -> (0 <= q <= N)%R -> (0 <= q / N <= 1)%R.
Proof.
  intros HN Hq. split.
  - unfold Rdiv. apply Rmult_le_pos; [lra|]. left. by apply Rinv_0_lt_compat.
  - apply (Rmult_le_reg_r N); [done|]. unfold Rdiv.
    rewrite Rmult_assoc, Rinv_l, Rmult_1_r by lra. lra.
Qed.

(** The pixel-space position of column [x] at zoom [kk]. *)
Lemma tile_pixel_eq (x z kk N : R) :
  N = Rpower 2 kk ->
  ((x / N * 2 + - (1)) * (Rpower 2 (z + - (1)) * IZR BASE_SIZE) =
   - (Rpower 2 (z - 1) * IZR BASE_SIZE) + x * (IZR BASE_SIZE * Rpower 2 (z - kk)))%R.
Proof.
  intros ->. assert (Hk := Rpower2_pos kk).
  replace (z + - (1))%R with (z - 1)%R by ring.
  replace ((x / Rpower 2 kk * 2 + - (1)) * (Rpower 2 (z - 1) * IZR BASE_SIZE))%R
    with (x * (Rpower 2 (z - 1) * 2) * IZR BASE_SIZE / Rpower 2 kk
          - Rpower 2 (z - 1) * IZR BASE_SIZE)%R by (field; lra).
  rewrite (Rpower2_split z kk). field. lra.
Qed.

Lemma position_of_tile_eq (ts : Z) (mx my z bx by' bw bh : R) (cur : option Point) (t : TileId) :
  0 < ts -> 0 <= tile_zoom t -> 0 <= tile_x t < 2 ^ tile_zoom t -> 0 <= tile_y t < 2 ^ tile_zoom t ->
  let vp := mkViewpoint (mkMercator (Fin mx) (Fin my)) (mkZoom (Fin z)) in
  let B := mkRect (Fin bx) (Fin by') (Fin bw) (Fin bh) in
  let H := (Rpower 2 (z - 1) * IZR BASE_SIZE)%R in
  let S := (IZR BASE_SIZE * Rpower 2 (z - IZR (tile_zoom t)))%R in
  position_of_tile ts vp (mkProjector vp cur B) t =
  mkRect (Fin (bx + bw / 2 - H - IZR (Rfloor (mx * H + / 2)) + IZR (tile_x t) * S))
         (Fin (by' + bh / 2 - H - IZR (Rfloor (my * H + / 2)) + IZR (tile_y t) * S))
         (Fin S) (Fin S).
Proof.
  intros Hts Hk Hx Hy vp B H S.
  destruct t as [x y k]; cbn [tile_x tile_y tile_zoom] in *.
  assert (HN : (0 < IZR (2 ^ k))%R) by (apply IZR_lt, Z.pow_pos_nonneg; lia).
  assert (HT : (0 < IZR ts)%R) by (apply IZR_lt; lia).
  assert (HH := phw_pos z).
  unfold position_of_tile, TileCoord_to_mercator, f64_log2, vp, B.
  cbv beta iota zeta delta [tile_x tile_y tile_zoom]. simpl_proj.
  rewrite !f64_div_pos by (first [exact HN | exact HT | exact HH | lra]).
  assert (HR : Rltb 0 (IZR BASE_SIZE / IZR ts) = true).
  { unfold Rltb. destruct (Rlt_dec _ _) as [|n]; [done|]. exfalso; apply n.
    unfold BASE_SIZE, Rdiv. apply Rmult_lt_0_compat; [lra|]. by apply Rinv_0_lt_compat. }
  rewrite HR.
  assert (Ax : (0 <= IZR x / IZR (2 ^ k) <= 1)%R).
  { apply div_01; [done|]. split; apply IZR_le; lia. }
  assert (Ay : (0 <= IZR y / IZR (2 ^ k) <= 1)%R).
  { apply div_01; [done|]. split; apply IZR_le; lia. }
  rewrite !f64_clamp_id by lra.
  assert (E := IZR_pow2 k Hk).
  rewrite (Rpower2_log2 _ (Rltb_true _ _ HR)).
  rewrite (tile_pixel_eq (IZR x) z (IZR k) _ E), (tile_pixel_eq (IZR y) z (IZR k) _ E).
  unfold H, S. replace (z + - (1))%R with (z - 1)%R by ring.
  replace (z + - IZR k)%R with (z - IZR k)%R by ring.
  f_equal; f_equal; try ring; field; lra.
Qed.

Lemma Rltb_iff (a b : R) : Rltb a b = true <-> (a < b)%R.
Proof. unfold Rltb. destruct (Rlt_dec a b); split; done || lra. Qed.

(** The columns (or rows) whose span meets an open interval form an interval. *)
Lemma span_convex (A S lo hi : R) (x1 x2 x : Z) :
  (0 < S)%R -> x1 <= x <= x2 ->
  Rltb lo (A + IZR x1 * S + S) && Rltb (A + IZR x1 * S) hi = true ->
  Rltb lo (A + IZR x2 * S + S) && Rltb (A + IZR x2 * S) hi = true ->
  Rltb lo (A + IZR x * S + S) && Rltb (A + IZR x * S) hi = true.
Proof.
  intros HS Hx H1 H2.
  apply andb_true_iff in H1 as [H1 _], H2 as [_ H2]. apply Rltb_iff in H1, H2.
  assert (E1 : (IZR x1 * S <= IZR x * S)%R) by (apply Rmult_le_compat_r; [lra|apply IZR_le; lia]).
  assert (E2 : (IZR x * S <= IZR x2 * S)%R) by (apply Rmult_le_compat_r; [lra|apply IZR_le; lia]).
  apply andb_true_iff; split; apply Rltb_iff; lra.
Qed.

Lemma Rfloor_bounds (x : R) : (IZR (Rfloor x) <= x < IZR (Rfloor x) + 1)%R.
Proof. unfold Rfloor. destruct (base_Int_part x). lra. Qed.

Lemma Rtrunc_IZR (m : Z) : Rtrunc (IZR m) = m.
Proof.
  unfold Rtrunc, Rleb. destruct (Rle_dec 0 (IZR m)).
  - apply Rfloor_eq. lra.
  - rewrite <- opp_IZR, (Rfloor_eq (- m)) by lra. lia.
Qed.

Lemma u32_pow2_ok (k : Z) : 0 <= k <= 31 -> u32_pow2 k = Some (2 ^ k).
Proof.
  intros Hk. unfold u32_pow2, U32_LIMIT.
  replace ((0 <=? k) && (2 ^ k <? 2 ^ 32)) with true; [done|].
  symmetry. apply andb_true_intro; split; [apply Z.leb_le; lia|].
  apply Z.ltb_lt, Z.pow_lt_mono_r; lia.
Qed.

Lemma floor_cell (m : R) (k : Z) :
  0 <= k <= 31 -> (-1 <= m <= 1)%R ->
  let f := Rfloor ((m + 1) / 2 * IZR (2 ^ k)) in
  0 <= f <= 2 ^ k /\
  f64_as_u32 (Fin (IZR f)) = f /\
  (IZR (zclamp f 0 (2 ^ k - 1)) <= (m + 1) / 2 * IZR (2 ^ k) <= IZR (zclamp f 0 (2 ^ k - 1)) + 1)%R.
Proof.
  intros Hk Hm f.
  assert (HN : (0 < IZR (2 ^ k))%R) by (apply IZR_lt, Z.pow_pos_nonneg; lia).
  assert (Hu : (0 <= (m + 1) / 2 * IZR (2 ^ k) <= IZR (2 ^ k))%R).
  { split; [apply Rmult_le_pos; lra|].
    rewrite <- (Rmult_1_l (IZR (2 ^ k))) at 2. apply Rmult_le_compat_r; lra. }
  destruct (Rfloor_bounds ((m + 1) / 2 * IZR (2 ^ k))) as [F1 F2]. fold f in F1, F2.
  assert (Hf : 0 <= f <= 2 ^ k).
  { split.
    - assert (Hlt : (IZR (-1) < IZR f)%R) by lra. apply lt_IZR in Hlt. lia.
    - apply le_IZR. lra. }
  assert (H32 : 2 ^ k <= 2 ^ 31) by (apply Z.pow_le_mono_r; lia).
  split; [done|]. split.
  - unfold f64_as_u32, f64_as_uint, U32_LIMIT. rewrite Rtrunc_IZR. lia.
  - unfold zclamp. destruct (Z.le_gt_cases f (2 ^ k - 1)).
    + rewrite Z.min_l, Z.max_r by lia. lra.
    + rewrite Z.min_r, Z.max_r by lia. rewrite minus_IZR. split; [|lra].
      assert (IZR (2 ^ k) <= IZR f)%R by (apply IZR_le; lia). lra.
Qed.

Lemma central_tile (mx my : R) (k : Z) :
  0 <= k <= 31 -> (-1 <= mx <= 1)%R -> (-1 <= my <= 1)%R ->
  exists sx sy, Mercator_tile_id (mkMercator (Fin mx) (Fin my)) k = Some (mkTileId sx sy k) /\
    0 <= sx < 2 ^ k /\ 0 <= sy < 2 ^ k /\
    (IZR sx <= (mx + 1) / 2 * IZR (2 ^ k) <= IZR sx + 1)%R /\
    (IZR sy <= (my + 1) / 2 * IZR (2 ^ k) <= IZR sy + 1)%R.
Proof.
  intros Hk Hx Hy.
  destruct (floor_cell mx k Hk Hx) as (Fx & Cx & Bx).
  destruct (floor_cell my k Hk Hy) as (Fy & Cy & By).
  unfold Mercator_tile_id. cbv zeta. rewrite u32_pow2_ok by done.
  cbn [merc_x merc_y f64_add]. rewrite !f64_div_pos by lra.
  cbn [f64_mul f64_of_Z f64_floor]. rewrite Cx, Cy.
  unfold TileId_new. rewrite u32_pow2_ok by done.
  unfold checked_sub. rewrite (proj2 (Z.leb_le 1 (2 ^ k))) by lia.
  eexists _, _. split; [reflexivity|].
  unfold zclamp in *. repeat split; try lia; apply Bx || apply By.
Qed.

Lemma round_le (s : R) (b : Z) : 0 <= b -> (s <= IZR b)%R ->
  exists m, f64_round (Fin s) = Fin (IZR m) /\ m <= b.
Proof.
  intros Hb Hs. unfold f64_round, Rleb. destruct (Rle_dec 0 s).
  - eexists; split; [reflexivity|].
    destruct (Rfloor_bounds (s + / 2)) as [F1 _].
    assert (Hlt : (IZR (Rfloor (s + / 2)) < IZR (b + 1))%R) by (rewrite plus_IZR; lra).
    apply lt_IZR in Hlt. lia.
  - exists (- Rfloor (- s + / 2)). rewrite opp_IZR. split; [done|].
    destruct (Rfloor_bounds (- s + / 2)) as [_ F2].
    assert (Hlt : (IZR (-1) < IZR (Rfloor (- s + / 2)))%R) by lra.
    apply lt_IZR in Hlt. lia.
Qed.

Lemma scale_offset_eq (ts : Z) : 0 < ts ->
  f64_log2 (f64_div (f64_of_Z BASE_SIZE) (f64_of_Z ts)) =
  Fin (ln (IZR BASE_SIZE / IZR ts) / ln 2).
Proof.
  intros Hts. assert (HT : (0 < IZR ts)%R) by (apply IZR_lt; lia).
  unfold f64_of_Z. rewrite f64_div_pos by done. unfold f64_log2.
  replace (Rltb 0 (IZR BASE_SIZE / IZR ts)) with true; [done|].
  symmetry. apply Rltb_iff. unfold BASE_SIZE, Rdiv.
  apply Rmult_lt_0_compat; [lra|]. by apply Rinv_0_lt_compat.
Qed.

Lemma scale_offset_le_1 (ts : Z) : 256 <= ts -> (ln (IZR BASE_SIZE / IZR ts) / ln 2 <= 1)%R.
Proof.
  intros Hts. assert (HT : (256 <= IZR ts)%R) by (apply IZR_le; lia).
  assert (Hl : (0 < ln 2)%R) by (rewrite <- ln_1; apply ln_increasing; lra).
  assert (Hq : (0 < IZR BASE_SIZE / IZR ts <= 2)%R).
  { unfold BASE_SIZE. split.
    - unfold Rdiv. apply Rmult_lt_0_compat; [lra|]. apply Rinv_0_lt_compat; lra.
    - apply (Rmult_le_reg_r (IZR ts)); [lra|]. unfold Rdiv.
      rewrite Rmult_assoc, Rinv_l, Rmult_1_r by lra. lra. }
  apply (Rmult_le_reg_r (ln 2)); [done|]. unfold Rdiv.
  rewrite Rmult_assoc, Rinv_l, Rmult_1_r, Rmult_1_l by lra.
  unfold Rdiv in Hq.
  destruct (Req_dec (IZR BASE_SIZE * / IZR ts) 2) as [E|Hne]; [rewrite E; lra|].
  left. apply ln_increasing; lra.
Qed.

Lemma flood_zoom_range (ts mz : Z) (vp : Viewpoint) (z : R) :
  256 <= ts -> zoom_f64 (vp_zoom vp) = Fin z -> (z <= 26)%R ->
  0 <= flood_zoom ts mz vp <= 27.
Proof.
  intros Hts Hz Hz26. unfold flood_zoom. cbv zeta.
  rewrite scale_offset_eq by lia. rewrite Hz.
  assert (Hs := scale_offset_le_1 ts Hts).
  set (so := (ln (IZR BASE_SIZE / IZR ts) / ln 2)%R) in *.
  assert (Hm : exists s, f64_min (f64_add (Fin z) (Fin so)) (f64_of_Z mz) = Fin s /\ (s <= IZR 27)%R).
  { unfold f64_min, f64_of_Z. cbn [f64_add f64_lt]. unfold Rltb.
    destruct (Rlt_dec (IZR mz) (z + so)); eexists; split; try reflexivity; lra. }
  destruct Hm as (s & -> & Hs27).
  destruct (round_le s 27) as (m & -> & Hm); [lia|done|].
  unfold f64_as_u8, f64_as_uint. rewrite Rtrunc_IZR. lia.
Qed.

Lemma NoDup_fst_omap {A B C} (g : A * B -> option (A * C)) (l : list (A * B)) :
  (forall a b p, g (a, b) = Some p -> p.1 = a) ->
  NoDup l.*1 -> NoDup (omap g l).*1.
Proof.
  intros Hg. induction l as [|[a b] l IH]; cbn; [done|].
  intros Hnd. apply NoDup_cons in Hnd as [Hni Hnd].
  destruct (g (a, b)) as [[a' c]|] eqn:E; cbn; [|by apply IH].
  apply Hg in E. cbn in E. subst a'.
  apply NoDup_cons. split; [|by apply IH].
  intros Hin. apply Hni. apply list_elem_of_fmap in Hin as [[a' c'] [Ha' Hin]].
  cbn in Ha'. subst a'. apply list_elem_of_omap in Hin as [[a'' b''] [Hin Hg'']].
  apply Hg in Hg''. cbn in Hg''. subst a''.
  apply list_elem_of_fmap. exists (a, b''). by split.
Qed.

Lemma drain_elem (M : Tiles) (t : TileId) (r : Rectangle) :
  (t, r) ∈ omap (fun '(id, tile) => (fun r => (id, r)) <$> tile) (map_to_list M) <->
  M !! t = Some (Some r).
Proof.
  rewrite list_elem_of_omap. split.
  - intros [[t' [r'|]] [Hin E]]; cbn in E; [|discriminate].
    injection E as <- <-. by apply elem_of_map_to_list.
  - intros Hl. exists (t, Some r). split; [by apply elem_of_map_to_list|done].
Qed.

Lemma start_span (bx bw H c m N S : R) (s : Z) :
  (0 < S)%R -> (N * S = 2 * H)%R -> (0 <= bw)%R ->
  (IZR (Rfloor (m * H + / 2)) = c) ->
  (IZR s <= (m + 1) / 2 * N <= IZR s + 1)%R ->
  Rltb (bx + - (32)) (bx + bw / 2 - H - c + IZR s * S + S) &&
  Rltb (bx + bw / 2 - H - c + IZR s * S) (bx + - (32) + (bw + 2 * 32)) = true.
Proof.
  intros HS HN Hbw Hc Hs.
  destruct (Rfloor_bounds (m * H + / 2)) as [C1 C2]. rewrite Hc in C1, C2.
  assert (E : ((m + 1) / 2 * N * S = (m + 1) * H)%R).
  { rewrite Rmult_assoc, HN. field. }
  assert (L1 : (IZR s * S <= (m + 1) / 2 * N * S)%R) by (apply Rmult_le_compat_r; lra).
  assert (L2 : ((m + 1) / 2 * N * S <= (IZR s + 1) * S)%R) by (apply Rmult_le_compat_r; lra).
  apply andb_true_iff; split; apply Rltb_iff; lra.
Qed.

Lemma grid_count_fuel (k : Z) : 0 <= k ->
  (count_unvisited ∅ (grid k) < flood_fuel k)%nat.
Proof.
  intros Hk. unfold flood_fuel. rewrite <- length_grid by done.
  pose proof (count_unvisited_le ∅ (grid k)). lia.
Qed.

(** C1: for a viewpoint with its position in [[-1, 1]] and a zoom in
    [[2, 26]], finite bounds of non-negative size, a tile size of at least
    256 and any maximum zoom, the flood fill over the bounds expanded by
    32 returns (its recursion depth is bounded by the number of tiles of
    the grid, so it terminates), without duplicate tiles, exactly the
    tiles of the grid at the searched zoom whose rectangle intersects the
    expanded viewport, each with that rectangle. *)
Theorem flood_tiles_complete (ts mz : Z) (mx my z bx by' bw bh : R) (cur : option Point) :
  256 <= ts ->
  (-1 <= mx <= 1)%R -> (-1 <= my <= 1)%R -> (2 <= z <= 26)%R ->
  (0 <= bw)%R -> (0 <= bh)%R ->
  let vp := mkViewpoint (mkMercator (Fin mx) (Fin my)) (mkZoom (Fin z)) in
  let bounds := mkRect (Fin bx) (Fin by') (Fin bw) (Fin bh) in
  let projector := mkProjector vp cur bounds in
  let viewport := Rectangle_expand bounds (Fin 32) in
  let k := flood_zoom ts mz vp in
  exists tiles, flood_tiles ts mz vp viewport projector = Some tiles /\
    NoDup tiles.*1 /\
    (forall t r, (t, r) ∈ tiles <->
       tile_valid k t /\ r = position_of_tile ts vp projector t /\
       Rectangle_intersects viewport r = true).
Proof.
  intros Hts Hmx Hmy Hz Hbw Hbh vp bounds projector viewport k.
  assert (Hk : 0 <= k <= 27) by (apply (flood_zoom_range ts mz vp z); [done|done|lra]).
  assert (Hk31 : 0 <= k <= 31) by lia.
  destruct (central_tile mx my k Hk31 Hmx Hmy) as (sx & sy & Hc & Hsx & Hsy & Bx & By).
  assert (Hsv : tile_valid k (mkTileId sx sy k)) by (repeat split; cbn; lia).
  destruct (flood_inner_spec ts vp projector viewport k Hk31 (flood_fuel k) ∅ _ Hsv
              (grid_count_fuel k ltac:(lia))) as (M & Hf & _ & Hs & Hnew).
  unfold flood_tiles. fold k. cbn [vp_position vp]. fold vp.
  rewrite Hc, Hf. eexists. split; [reflexivity|].
  (* The geometry of the tiles at zoom [k]. *)
  set (H := (Rpower 2 (z - 1) * IZR BASE_SIZE)%R).
  set (S := (IZR BASE_SIZE * Rpower 2 (z - IZR k))%R).
  set (Ax := (bx + bw / 2 - H - IZR (Rfloor (mx * H + / 2)))%R).
  set (Ay := (by' + bh / 2 - H - IZR (Rfloor (my * H + / 2)))%R).
  assert (HS : (0 < S)%R) by (unfold S, BASE_SIZE; apply Rmult_lt_0_compat; [lra|apply Rpower2_pos]).
  assert (HNS : (IZR (2 ^ k) * S = 2 * H)%R).
  { unfold S, H. rewrite IZR_pow2 by lia.
    replace (2 * (Rpower 2 (z - 1) * IZR BASE_SIZE))%R
      with (Rpower 2 (z - 1) * 2 * IZR BASE_SIZE)%R by ring.
    rewrite (Rpower2_split z (IZR k)). ring. }
  set (ax := fun x : Z => Rltb (bx + - (32)) (Ax + IZR x * S + S) &&
                          Rltb (Ax + IZR x * S) (bx + - (32) + (bw + 2 * 32))).
  set (ay := fun y : Z => Rltb (by' + - (32)) (Ay + IZR y * S + S) &&
                          Rltb (Ay + IZR y * S) (by' + - (32) + (bh + 2 * 32))).
  assert (Hdec : forall x y, tile_valid k (mkTileId x y k) ->
    Rectangle_intersects viewport (position_of_tile ts vp projector (mkTileId x y k)) =
    ax x && ay y).
  { intros x y (_ & Hx & Hy); cbn in Hx, Hy.
    unfold projector, vp, bounds. rewrite position_of_tile_eq by (cbn; lia).
    unfold viewport, Rectangle_intersects, Rectangle_expand, bounds.
    cbn [rx ry rwidth rheight tile_x tile_y tile_zoom f64_sub f64_add f64_neg f64_mul f64_lt].
    unfold ax, ay. rewrite <- !andb_assoc. reflexivity. }
  assert (Hsa : Rectangle_intersects viewport (position_of_tile ts vp projector (mkTileId sx sy k)) = true).
  { rewrite Hdec by done. apply andb_true_iff. split.
    - apply (start_span bx bw H _ mx (IZR (2 ^ k)) S sx); done.
    - apply (start_span by' bh H _ my (IZR (2 ^ k)) S sy); done. }
  assert (Hcomp := flood_complete ts vp projector viewport k Hk31 M Hnew (mkTileId sx sy k) ax ay
                     Hs Hsv Hsa Hdec
                     (fun x1 x2 x Hx => span_convex Ax S _ _ x1 x2 x HS Hx)
                     (fun y1 y2 y Hy => span_convex Ay S _ _ y1 y2 y HS Hy)).
  split.
  - apply NoDup_fst_omap; [|apply NoDup_fst_map_to_list].
    intros a [b|] p E; cbn in E; [|discriminate]. by injection E as <-.
  - intros t r. rewrite drain_elem. split.
    + intros Hl. destruct (Hnew t (Some r) (lookup_empty t) Hl) as (Hv & Hr & _).
      destruct (Rectangle_intersects viewport (position_of_tile ts vp projector t)) eqn:Ei;
        [|discriminate]. injection Hr as ->. done.
    + intros (Hv & -> & Hi). destruct (Hcomp t Hv Hi) as [v Hv'].
      destruct (Hnew t v (lookup_empty t) Hv') as (_ & Hr & _). rewrite Hi in Hr.
      by subst v.
Qed.

Lemma flood_tiles_complete_witness :
  let vp := mkViewpoint (mkMercator (Fin 0) (Fin 0)) (mkZoom (Fin 2)) in
  let bounds := mkRect (Fin 0) (Fin 0) (Fin 100) (Fin 100) in
  exists tiles,
    flood_tiles 256 18 vp (Rectangle_expand bounds (Fin 32)) (mkProjector vp None bounds)
    = Some tiles /\ NoDup tiles.*1.
Proof.
  destruct (flood_tiles_complete 256 18 0 0 2 0 0 100 100 None) as (tiles & Hf & Hnd & _);
    [lia | lra | lra | lra | lra | lra |].
  exists tiles. split; [exact Hf | exact Hnd].
Defined.

(* ================================================================== *)
(** * Further properties of the crate *)

(** ** The tile grid *)

(** [TileId::valid] on a tile with [u32] coordinates is membership of the
    grid at its zoom. *)
Lemma TileId_valid_iff (t : TileId) :
  0 <= tile_x t -> 0 <= tile_y t -> 0 <= tile_zoom t <= 31 ->
  TileId_valid t = Some true <-> tile_valid (tile_zoom t) t.
Proof.
  intros Hx Hy Hz. unfold TileId_valid, tile_valid. rewrite total_tiles_ok by done.
  split.
  - intros E. injection E as E. apply andb_true_iff in E as [E1 E2].
    apply Z.ltb_lt in E1, E2. lia.
  - intros (_ & H1 & H2). f_equal. apply andb_true_iff. split; apply Z.ltb_lt; lia.
Qed.

(** [TileId::new] at a zoom of at most 31 yields a valid tile at that zoom,
    and keeps coordinates that are already on the grid. *)
Theorem TileId_new_valid (x y zoom : Z) :
  0 <= zoom <= 31 ->
  exists t, TileId_new x y zoom = Some t /\ TileId_valid t = Some true /\
    tile_zoom t = zoom /\
    (0 <= x < 2 ^ zoom -> 0 <= y < 2 ^ zoom -> t = mkTileId x y zoom).
Proof.
  intros Hz. assert (Hp : 0 < 2 ^ zoom) by (apply Z.pow_pos_nonneg; lia).
  unfold TileId_new. rewrite u32_pow2_ok by done.
  unfold checked_sub. rewrite (proj2 (Z.leb_le 1 (2 ^ zoom))) by lia.
  eexists; split; [reflexivity|]. split; [|split; [reflexivity|]].
  - apply TileId_valid_iff; cbn [tile_x tile_y tile_zoom]; unfold zclamp;
      [lia | lia | lia |]. unfold tile_valid; cbn. lia.
  - intros Hx Hy. unfold zclamp. f_equal; lia.
Qed.

Lemma TileId_new_valid_witness :
  0 <= 5 <= 31 /\
  exists t, TileId_new 40 3 5 = Some t /\ TileId_valid t = Some true /\
    tile_zoom t = 5 /\ (0 <= 40 < 2 ^ 5 -> 0 <= 3 < 2 ^ 5 -> t = mkTileId 40 3 5).
Proof. split; [lia | apply (TileId_new_valid 40 3 5); lia]. Defined.

(** On a valid tile, the neighbours are valid tiles of the same zoom,
    east and west undo each other, and so do south and north. *)
Theorem neighbors_inverse (t : TileId) :
  0 <= tile_x t -> 0 <= tile_y t -> 0 <= tile_zoom t <= 31 ->
  TileId_valid t = Some true ->
  exists ns, neighbors t = Some ns /\
    (forall nb, nb ∈ ns -> TileId_valid nb = Some true /\ tile_zoom nb = tile_zoom t) /\
    (forall e, tile_east t = Some (Some e) -> tile_west e = Some t) /\
    (forall s, tile_south t = Some (Some s) -> tile_north s = Some t) /\
    (forall w, tile_west t = Some w -> tile_east w = Some (Some t)) /\
    (forall n, tile_north t = Some n -> tile_south n = Some (Some t)).
Proof.
  intros Hx Hy Hz Hv. apply TileId_valid_iff in Hv; try done.
  destruct (neighbors_spec (tile_zoom t) t Hz Hv) as (ns & Hns & Hall & _).
  exists ns. split; [done|]. destruct t as [x y z]; cbn in *.
  destruct Hv as (_ & Hxv & Hyv). cbn [tile_x tile_y] in Hxv, Hyv.
  assert (Hp : 0 < 2 ^ z) by (apply Z.pow_pos_nonneg; lia).
  split; [|split; [|split; [|split]]].
  - intros nb Hin. destruct (Hall nb Hin) as (Hz' & Hv').
    split; [|done]. destruct nb as [x' y' z']; cbn in *. subst z'.
    apply TileId_valid_iff; cbn; try lia. unfold tile_valid; cbn. lia.
  - unfold tile_east, tile_west, checked_sub. cbn. rewrite total_tiles_ok by done.
    rewrite (proj2 (Z.leb_le 1 (2 ^ z))) by lia.
    intros e E. destruct (x <? 2 ^ z - 1); [|discriminate].
    injection E as <-. cbn. rewrite (proj2 (Z.leb_le 1 (x + 1))) by lia.
    do 2 f_equal. lia.
  - unfold tile_south, tile_north, checked_sub. cbn. rewrite total_tiles_ok by done.
    rewrite (proj2 (Z.leb_le 1 (2 ^ z))) by lia.
    intros s E. destruct (y <? 2 ^ z - 1); [|discriminate].
    injection E as <-. cbn. rewrite (proj2 (Z.leb_le 1 (y + 1))) by lia.
    do 2 f_equal. lia.
  - unfold tile_east, tile_west, checked_sub. cbn.
    intros w E. destruct (Z.leb_spec 1 x); [|discriminate]. injection E as <-.
    cbn. rewrite total_tiles_ok by done. rewrite (proj2 (Z.leb_le 1 (2 ^ z))) by lia.
    rewrite (proj2 (Z.ltb_lt (x - 1) (2 ^ z - 1))) by lia. do 3 f_equal. lia.
  - unfold tile_south, tile_north, checked_sub. cbn.
    intros n E. destruct (Z.leb_spec 1 y); [|discriminate]. injection E as <-.
    cbn. rewrite total_tiles_ok by done. rewrite (proj2 (Z.leb_le 1 (2 ^ z))) by lia.
    rewrite (proj2 (Z.ltb_lt (y - 1) (2 ^ z - 1))) by lia. do 3 f_equal. lia.
Qed.

Lemma neighbors_inverse_witness :
  let t := mkTileId 1 2 3 in
  (0 <= tile_x t /\ 0 <= tile_y t /\ 0 <= tile_zoom t <= 31 /\
   TileId_valid t = Some true) /\
  exists ns, neighbors t = Some ns /\
    (forall nb, nb ∈ ns -> TileId_valid nb = Some true /\ tile_zoom nb = tile_zoom t) /\
    (forall e, tile_east t = Some (Some e) -> tile_west e = Some t) /\
    (forall s, tile_south t = Some (Some s) -> tile_north s = Some t) /\
    (forall w, tile_west t = Some w -> tile_east w = Some (Some t)) /\
    (forall n, tile_north t = Some n -> tile_south n = Some (Some t)).
Proof.
  cbv zeta. split; [cbn; repeat split; try lia; reflexivity|].
  apply neighbors_inverse; cbn; [lia | lia | lia | reflexivity].
Defined.

(** [TileId::downsample] has nothing below zoom 0; above it, it yields the
    valid tile one zoom level lower whose 2x2 block contains the tile. *)
Theorem downsample_parent (t : TileId) :
  0 <= tile_x t -> 0 <= tile_y t -> 0 <= tile_zoom t <= 31 ->
  TileId_valid t = Some true ->
  (tile_zoom t = 0 -> downsample t = None) /\
  (1 <= tile_zoom t -> exists p, downsample t = Some p /\
     tile_zoom p = tile_zoom t - 1 /\ TileId_valid p = Some true /\
     2 * tile_x p <= tile_x t < 2 * tile_x p + 2 /\
     2 * tile_y p <= tile_y t < 2 * tile_y p + 2).
Proof.
  intros Hx Hy Hz Hv. apply TileId_valid_iff in Hv; try done.
  destruct t as [x y z]; cbn in *. destruct Hv as (_ & Hxv & Hyv).
  cbn [tile_x tile_y] in Hxv, Hyv.
  unfold downsample, checked_sub; cbn. split.
  - intros ->. reflexivity.
  - intros Hz1. rewrite (proj2 (Z.leb_le 1 z)) by done.
    eexists; split; [reflexivity|]. cbn. split; [done|].
    assert (E : 2 ^ z = 2 * 2 ^ (z - 1)).
    { rewrite <- Z.pow_succ_r by lia. f_equal. lia. }
    pose proof (Z.div_mod x 2 ltac:(lia)). pose proof (Z.mod_pos_bound x 2 ltac:(lia)).
    pose proof (Z.div_mod y 2 ltac:(lia)). pose proof (Z.mod_pos_bound y 2 ltac:(lia)).
    split; [|lia].
    apply TileId_valid_iff; cbn; [| | lia |]; try (apply Z.div_pos; lia).
    unfold tile_valid; cbn. lia.
Qed.

Lemma downsample_parent_witness :
  let t := mkTileId 5 6 3 in
  (0 <= tile_x t /\ 0 <= tile_y t /\ 0 <= tile_zoom t <= 31 /\
   TileId_valid t = Some true) /\
  (1 <= tile_zoom t -> exists p, downsample t = Some p /\
     tile_zoom p = tile_zoom t - 1 /\ TileId_valid p = Some true /\
     2 * tile_x p <= tile_x t < 2 * tile_x p + 2 /\
     2 * tile_y p <= tile_y t < 2 * tile_y p + 2).
Proof.
  cbv zeta. split; [cbn; repeat split; try lia; reflexivity|].
  apply downsample_parent; cbn; [lia | lia | lia | reflexivity].
Defined.



(** ** Geographic coordinates *)

Lemma sinh_opp (x : R) : sinh (- x) = (- sinh x)%R.
Proof. unfold sinh. rewrite Ropp_involutive. field. Qed.

Lemma Rabs_le_bounds (a b : R) : (Rabs a <= b)%R -> (- b <= a <= b)%R.
Proof. unfold Rabs. destruct (Rcase_abs a); lra. Qed.

(** From Mercator to geographic coordinates and back is the identity, as
    long as the latitude stays within the clamp of [Geographic::new]. *)
Theorem mercator_geographic_round_trip (x y : R) :
  (-1 <= x <= 1)%R -> (-1 <= y <= 1)%R ->
  (Rabs (atan (sinh (y * PI)) * (180 / PI)) <= LAT_LIMIT)%R ->
  as_mercator (as_geographic (mkMercator (Fin x) (Fin y))) = mkMercator (Fin x) (Fin y).
Proof.
  intros Hx Hy Hl. apply Rabs_le_bounds in Hl.
  assert (HP := PI_RGT_0). assert (HP0 := PI_neq0).
  unfold as_geographic, Geographic_new, f64_to_degrees.
  cbn [merc_x merc_y f64_mul f64_sinh f64_atan f64_neg].
  rewrite (f64_clamp_eq _ (180 * x)); [| field; lra | lra].
  rewrite f64_clamp_id by lra.
  unfold as_mercator, Mercator_new, f64_to_radians.
  cbn [lon lat f64_mul f64_neg f64_tan f64_asinh].
  rewrite !f64_div_pos by lra.
  replace (- (atan (sinh (y * PI)) * (180 / PI)) * (PI / 180))%R
    with (- atan (sinh (y * PI)))%R by (field; lra).
  rewrite tan_neg, tan_atan, <- sinh_opp, arcsinh_sinh.
  f_equal; apply f64_clamp_eq; (field || lra); lra.
Qed.

Lemma mercator_geographic_round_trip_witness :
  ((-1 <= 0 <= 1)%R /\ (-1 <= 0 <= 1)%R /\
   (Rabs (atan (sinh (0 * PI)) * (180 / PI)) <= LAT_LIMIT)%R) /\
  as_mercator (as_geographic (mkMercator (Fin 0) (Fin 0))) = mkMercator (Fin 0) (Fin 0).
Proof.
  assert (H : (Rabs (atan (sinh (0 * PI)) * (180 / PI)) <= LAT_LIMIT)%R).
  { rewrite Rmult_0_l, sinh_0, atan_0, Rmult_0_l, Rabs_R0. unfold LAT_LIMIT. lra. }
  split; [split; [lra | split; [lra | exact H]]|].
  apply mercator_geographic_round_trip; [lra | lra | exact H].
Defined.

(** From geographic to Mercator coordinates and back is the identity for a
    valid longitude and latitude, as long as the Mercator northing stays
    within the clamp of [Mercator::new]. *)
Theorem geographic_mercator_round_trip (lo la : R) :
  (-180 <= lo <= 180)%R -> (- LAT_LIMIT <= la <= LAT_LIMIT)%R ->
  (Rabs (arcsinh (tan (la * (PI / 180)))) <= PI)%R ->
  as_geographic (as_mercator (mkGeographic (Fin lo) (Fin la))) = mkGeographic (Fin lo) (Fin la).
Proof.
  intros Hlo Hla Hm. apply Rabs_le_bounds in Hm.
  assert (HP := PI_RGT_0). assert (HP0 := PI_neq0).
  unfold as_mercator, Mercator_new, f64_to_radians.
  cbn [lon lat f64_mul f64_neg f64_tan f64_asinh].
  rewrite !f64_div_pos by lra.
  rewrite (f64_clamp_eq _ (lo / 180)); [| field; lra | lra].
  set (T := tan (la * (PI / 180))) in *.
  rewrite (f64_clamp_eq _ (- arcsinh T / PI)); [| reflexivity |].
  2:{ split.
      - apply (Rmult_le_reg_r PI); [lra|]. unfold Rdiv.
        rewrite Rmult_assoc, Rinv_l, Rmult_1_r by lra. lra.
      - apply (Rmult_le_reg_r PI); [lra|]. unfold Rdiv.
        rewrite Rmult_assoc, Rinv_l, Rmult_1_r by lra. lra. }
  unfold as_geographic, Geographic_new, f64_to_degrees.
  cbn [merc_x merc_y f64_mul f64_sinh f64_atan f64_neg].
  replace (- arcsinh T / PI * PI)%R with (- arcsinh T)%R by (field; lra).
  rewrite sinh_opp, sinh_arcsinh, atan_opp. unfold T.
  assert (Hr : (- (PI / 2) < la * (PI / 180) < PI / 2)%R).
  { unfold LAT_LIMIT in Hla.
    replace (la * (PI / 180))%R with (PI * (la / 180))%R by (field; lra).
    split.
    - replace (- (PI / 2))%R with (PI * (- / 2))%R by field.
      apply Rmult_lt_compat_l; lra.
    - replace (PI / 2)%R with (PI * (/ 2))%R by field.
      apply Rmult_lt_compat_l; lra. }
  rewrite atan_tan by exact Hr.
  f_equal; apply f64_clamp_eq; (field || lra); unfold LAT_LIMIT in *; lra.
Qed.

Lemma geographic_mercator_round_trip_witness :
  ((-180 <= 0 <= 180)%R /\ (- LAT_LIMIT <= 0 <= LAT_LIMIT)%R /\
   (Rabs (arcsinh (tan (0 * (PI / 180)))) <= PI)%R) /\
  as_geographic (as_mercator (mkGeographic (Fin 0) (Fin 0))) = mkGeographic (Fin 0) (Fin 0).
Proof.
  assert (H : (Rabs (arcsinh (tan (0 * (PI / 180)))) <= PI)%R).
  { rewrite Rmult_0_l, tan_0, arcsinh_0, Rabs_R0. left. apply PI_RGT_0. }
  assert (HL : (- LAT_LIMIT <= 0 <= LAT_LIMIT)%R) by (unfold LAT_LIMIT; lra).
  split; [split; [lra | split; [exact HL | exact H]]|].
  apply geographic_mercator_round_trip; [lra | exact HL | exact H].
Defined.

(** ** Zoom steps *)

(** From a valid zoom [z], [Zoom::zoom_in] moves to [z + 1] and reports
    success when that is at most 26, and otherwise reports [InvalidZoom]
    and leaves the zoom unchanged; [Zoom::zoom_out] likewise with [z - 1]
    and 2; zooming in and then out returns to [z]. *)
Theorem zoom_in_out (z : R) :
  (2 <= z <= 26)%R ->
  zoom_in (mkZoom (Fin z)) =
    (if Rleb (z + 1) 26 then (mkZoom (Fin (z + 1)), true) else (mkZoom (Fin z), false)) /\
  zoom_out (mkZoom (Fin z)) =
    (if Rleb 2 (z - 1) then (mkZoom (Fin (z - 1)), true) else (mkZoom (Fin z), false)) /\
  ((z + 1 <= 26)%R -> zoom_out (zoom_in (mkZoom (Fin z))).1 = (mkZoom (Fin z), true)).
Proof.
  intros Hz. unfold zoom_in, zoom_out, Zoom_try_from, f64_sub.
  cbn [zoom_f64 f64_add f64_neg f64_le]. split; [|split].
  - rdec; cbn; try lra; reflexivity.
  - replace (z + - (1))%R with (z - 1)%R by ring. rdec; cbn; try lra; reflexivity.
  - intros Hz1. rdec; cbn [fst zoom_f64 f64_add f64_neg f64_le andb negb]; try lra.
    replace (z + 1 + - (1))%R with z by ring. rdec; cbn; try lra; reflexivity.
Qed.

Lemma zoom_in_out_witness :
  (2 <= 25 <= 26)%R /\
  ((25 + 1 <= 26)%R -> zoom_out (zoom_in (mkZoom (Fin 25))).1 = (mkZoom (Fin 25), true)).
Proof. split; [lra | apply (zoom_in_out 25); lra]. Defined.

(** [Zoom::round] of a valid zoom is the nearest integer, between 2 and
    26. *)
Theorem Zoom_round_range (z : R) :
  (2 <= z <= 26)%R ->
  2 <= Zoom_round (mkZoom (Fin z)) <= 26 /\
  (IZR (Zoom_round (mkZoom (Fin z))) - / 2 <= z < IZR (Zoom_round (mkZoom (Fin z))) + / 2)%R.
Proof.
  intros Hz. unfold Zoom_round, f64_round, f64_as_u8, f64_as_uint. cbn [zoom_f64].
  rdec; [|lra]. rewrite Rtrunc_IZR.
  destruct (Rfloor_bounds (z + / 2)) as [F1 F2].
  set (n := Rfloor (z + / 2)) in *.
  assert (Hn1 : (IZR 1 < IZR n)%R) by lra. apply lt_IZR in Hn1.
  assert (Hn2 : (IZR n < IZR 27)%R) by lra. apply lt_IZR in Hn2.
  rewrite Z.min_r, Z.max_r by lia. split; [lia | lra].
Qed.

Lemma Zoom_round_range_witness :
  (2 <= 16 <= 26)%R /\ 2 <= Zoom_round (mkZoom (Fin 16)) <= 26.
Proof. split; [lra | apply (Zoom_round_range 16); lra]. Defined.

(** ** Rounding, projection and the viewpoint *)

(** [field] with the side conditions of powers of two and [BASE_SIZE]. *)
Ltac field_pow :=
  field; repeat split; try assumption; try lra;
  try (apply Rgt_not_eq; apply Rpower2_pos); try (unfold BASE_SIZE; lra).

(** The projector draws the viewpoint position within half a pixel of the
    centre of the bounds: the centre in pixel space is rounded by
    [round_ceil]. *)
Theorem viewpoint_drawn_at_center (vx vy z bx by' bw bh : R) (cur : option Point) :
  let P := mkProjector (mkViewpoint (mkMercator (Fin vx) (Fin vy)) (mkZoom (Fin z)))
             cur (mkRect (Fin bx) (Fin by') (Fin bw) (Fin bh)) in
  exists sx sy,
    mercator_into_screen_space P (mkMercator (Fin vx) (Fin vy)) = mkPoint (Fin sx) (Fin sy) /\
    (- / 2 <= sx - (bx + bw / 2) < / 2)%R /\ (- / 2 <= sy - (by' + bh / 2) < / 2)%R.
Proof.
  intros P. unfold P. simpl_proj. rewrite !f64_div_pos by lra.
  eexists _, _. split; [reflexivity|].
  set (u := (vx * (Rpower 2 (z + - (1)) * IZR BASE_SIZE))%R).
  set (v := (vy * (Rpower 2 (z + - (1)) * IZR BASE_SIZE))%R).
  destruct (Rfloor_bounds (u + / 2)), (Rfloor_bounds (v + / 2)).
  split; lra.
Qed.

(** [zoom_by] on a finite zoom and amount gives a finite zoom. *)
Lemma zoom_by_fin (z a : R) : exists z', zoom_by (mkZoom (Fin z)) (Fin a) = mkZoom (Fin z').
Proof.
  unfold zoom_by, Zoom_try_from. cbn [zoom_f64 f64_add].
  destruct (negb _); eexists; reflexivity.
Qed.

(** Mercator to pixel space and back at a finite zoom is the identity on
    the map. *)
Lemma pixel_round_trip (m c z : R) :
  (-1 <= m <= 1)%R ->
  f64_clamp (f64_div (Fin (m * (Rpower 2 (z + - (1)) * IZR BASE_SIZE) + (c + - c)))
                     (Fin (Rpower 2 (z + - (1)) * IZR BASE_SIZE)))
            (Fin (-1)) (Fin 1) = Fin m.
Proof.
  intros Hm. assert (HH := phw_pos z).
  replace (z + - (1))%R with (z - 1)%R by ring.
  rewrite f64_div_pos by exact HH. apply f64_clamp_eq; [|exact Hm].
  field_pow.
Qed.

(** At the centre of the bounds, [Viewpoint::position_in_viewport] gives
    the viewpoint position, and [Viewpoint::zoom_on_point] is
    [Viewpoint::zoom_on_center]: only the zoom changes. *)
Theorem viewpoint_center_fixed (mx my z a bx by' bw bh : R) :
  (-1 <= mx <= 1)%R -> (-1 <= my <= 1)%R ->
  let vp := mkViewpoint (mkMercator (Fin mx) (Fin my)) (mkZoom (Fin z)) in
  let b := mkRect (Fin bx) (Fin by') (Fin bw) (Fin bh) in
  position_in_viewport vp (Rectangle_center b) b = vp_position vp /\
  zoom_on_point vp (Fin a) (Rectangle_center b) b = zoom_on_center vp (Fin a).
Proof.
  intros Hx Hy vp b. destruct (zoom_by_fin z a) as [z' Hz'].
  unfold vp, b, position_in_viewport, zoom_on_point, zoom_on_center.
  cbn [vp_position vp_zoom]. rewrite Hz'.
  unfold Rectangle_center. cbn [rx ry rwidth rheight]. rewrite !f64_div_pos by lra.
  simpl_proj.
  split.
  - f_equal; by apply pixel_round_trip.
  - rewrite !pixel_round_trip by done.
    replace (Rpower 2 (z' + - (1)) * IZR BASE_SIZE)%R
      with (Rpower 2 (z' - 1) * IZR BASE_SIZE)%R by (f_equal; f_equal; ring).
    assert (HH := phw_pos z').
    f_equal. f_equal; cbn [f64_add]; rewrite f64_div_pos by exact HH;
      apply f64_clamp_eq; try (field_pow); lra.
Qed.

Lemma viewpoint_center_fixed_witness :
  ((-1 <= 0 <= 1)%R /\ (-1 <= /2 <= 1)%R) /\
  let vp := mkViewpoint (mkMercator (Fin 0) (Fin (/ 2))) (mkZoom (Fin 10)) in
  let b := mkRect (Fin 0) (Fin 0) (Fin 800) (Fin 600) in
  zoom_on_point vp (Fin 1) (Rectangle_center b) b = zoom_on_center vp (Fin 1).
Proof.
  split; [lra|]. apply (viewpoint_center_fixed 0 (/ 2) 10 1 0 0 800 600); lra.
Defined.

(** [Viewpoint::zoom_on_point] keeps the map point under the cursor in
    place: after the zoom, [position_in_viewport] of the cursor gives the
    same Mercator point as before, as long as no clamp of [Mercator::new]
    intervenes. *)
Theorem zoom_on_point_keeps_cursor (mx my z a z' bx by' bw bh qx qy : R) :
  zoom_by (mkZoom (Fin z)) (Fin a) = mkZoom (Fin z') ->
  let H := (Rpower 2 (z - 1) * IZR BASE_SIZE)%R in
  let H' := (Rpower 2 (z' - 1) * IZR BASE_SIZE)%R in
  let cx := (qx - (bx + bw / 2))%R in
  let cy := (qy - (by' + bh / 2))%R in
  (-1 <= mx + cx / H <= 1)%R -> (-1 <= my + cy / H <= 1)%R ->
  (-1 <= mx + cx / H - cx / H' <= 1)%R -> (-1 <= my + cy / H - cy / H' <= 1)%R ->
  let vp := mkViewpoint (mkMercator (Fin mx) (Fin my)) (mkZoom (Fin z)) in
  let b := mkRect (Fin bx) (Fin by') (Fin bw) (Fin bh) in
  let q := mkPoint (Fin qx) (Fin qy) in
  position_in_viewport (zoom_on_point vp (Fin a) q b) q b = position_in_viewport vp q b /\
  vp_zoom (zoom_on_point vp (Fin a) q b) = mkZoom (Fin z').
Proof.
  intros Hz' H H' cx cy H1 H2 H3 H4 vp b q.
  assert (HH := phw_pos z). assert (HH' := phw_pos z').
  assert (HHn : H <> 0%R) by (unfold H; lra). assert (HHn' : H' <> 0%R) by (unfold H'; lra).
  unfold vp, b, q, position_in_viewport, zoom_on_point.
  cbn [vp_position vp_zoom]. rewrite Hz'.
  unfold Rectangle_center. cbn [rx ry rwidth rheight]. rewrite !f64_div_pos by lra.
  simpl_proj.
  replace (z + - (1))%R with (z - 1)%R by ring.
  replace (z' + - (1))%R with (z' - 1)%R by ring.
  fold H H'.
  rewrite !f64_div_pos by (unfold H, H'; lra).
  rewrite (f64_clamp_eq _ (mx + cx / H)); [| unfold cx; field_pow | lra].
  rewrite (f64_clamp_eq _ (my + cy / H)); [| unfold cy; field_pow | lra].
  cbn [f64_add f64_mul f64_neg]. rewrite !f64_div_pos by (unfold H'; lra).
  rewrite (f64_clamp_eq _ (mx + cx / H - cx / H')); [| unfold cx; field_pow | lra].
  rewrite (f64_clamp_eq _ (my + cy / H - cy / H')); [| unfold cy; field_pow | lra].
  cbn [f64_add f64_mul f64_neg]. rewrite !f64_div_pos by (unfold H'; lra).
  split; [|reflexivity].
  f_equal; apply f64_clamp_eq; try lra; unfold cx, cy; field_pow.
Qed.

Lemma zoom_on_point_keeps_cursor_witness :
  let vp := mkViewpoint (mkMercator (Fin (/ 4)) (Fin 0)) (mkZoom (Fin 2)) in
  let b := mkRect (Fin 0) (Fin 0) (Fin 100) (Fin 100) in
  let q := mkPoint (Fin 80) (Fin 30) in
  zoom_by (mkZoom (Fin 2)) (Fin 1) = mkZoom (Fin (2 + 1)) /\
  position_in_viewport (zoom_on_point vp (Fin 1) q b) q b = position_in_viewport vp q b.
Proof.
  assert (Hz : zoom_by (mkZoom (Fin 2)) (Fin 1) = mkZoom (Fin (2 + 1))).
  { unfold zoom_by, Zoom_try_from. cbn [zoom_f64 f64_add f64_le]. rdec; try lra.
    reflexivity. }
  split; [exact Hz|].
  assert (H1 : Rpower 2 (2 - 1) = 2%R).
  { replace (2 - 1)%R with 1%R by ring. apply Rpower_1. lra. }
  assert (H2 : Rpower 2 (2 + 1 - 1) = 4%R).
  { replace (2 + 1 - 1)%R with (1 + 1)%R by ring. rewrite Rpower_plus, Rpower_1; lra. }
  apply (zoom_on_point_keeps_cursor (/ 4) 0 2 1 (2 + 1) 0 0 100 100 80 30 Hz);
    rewrite ?H1, ?H2; unfold BASE_SIZE; lra.
Defined.

(** [MapWidget::position_of_tile] sizes a tile as
    [BASE_SIZE * 2^(zoom - tile zoom)] pixels, whatever the tile size of
    the source; the rectangle is a square. *)
Theorem position_of_tile_size (ts : Z) (vp : Viewpoint) (P : Projector) (t : TileId) (z : R) :
  0 < ts -> zoom_f64 (vp_zoom vp) = Fin z ->
  rwidth (position_of_tile ts vp P t) = Fin (IZR BASE_SIZE * Rpower 2 (z - IZR (tile_zoom t))) /\
  rheight (position_of_tile ts vp P t) = rwidth (position_of_tile ts vp P t).
Proof.
  intros Hts Hz. unfold position_of_tile. cbn [rwidth rheight]. split; [|reflexivity].
  rewrite scale_offset_eq, Hz by done. unfold f64_of_Z.
  cbn [f64_pow2 f64_mul f64_sub f64_add f64_neg].
  assert (HT : (0 < IZR ts)%R) by (apply IZR_lt; lia).
  assert (Hq : (0 < IZR BASE_SIZE / IZR ts)%R).
  { unfold BASE_SIZE, Rdiv. apply Rmult_lt_0_compat; [lra|]. by apply Rinv_0_lt_compat. }
  rewrite Rpower2_log2 by exact Hq.
  replace (z + - IZR (tile_zoom t))%R with (z - IZR (tile_zoom t))%R by ring.
  f_equal. field. lra.
Qed.

Lemma position_of_tile_size_witness :
  let vp := mkViewpoint (mkMercator (Fin 0) (Fin 0)) (mkZoom (Fin 3)) in
  (0 < 256 /\ zoom_f64 (vp_zoom vp) = Fin 3) /\
  rwidth (position_of_tile 256 vp (mkProjector vp None (mkRect (Fin 0) (Fin 0) (Fin 1) (Fin 1)))
            (mkTileId 0 0 3)) = Fin (IZR BASE_SIZE * Rpower 2 (3 - IZR 3)).
Proof.
  split; [split; [lia | reflexivity]|].
  apply (position_of_tile_size 256 _ _ (mkTileId 0 0 3) 3); [lia | reflexivity].
Defined.

(* ------------------------------------------------------------------ *)
(** ** The draw cache *)

(** Two tile ids are equal exactly when their zoom keys and their
    coordinate keys in the draw cache are. *)
Lemma TileId_eq_keys (u t : TileId) :
  u = t <-> tile_zoom u = tile_zoom t /\ (tile_x u, tile_y u) = (tile_x t, tile_y t).
Proof.
  destruct u as [ux uy uz], t as [tx ty tz]; cbn.
  split; [intros [= -> -> ->]; auto | intros [-> [= -> ->]]; reflexivity].
Qed.

Lemma contains_key_insert (dc : DrawCache) (t u : TileId) h c s a :
  DrawCache_contains_key (DrawCache_insert dc t h c s a) u
  = bool_decide (u = t) || DrawCache_contains_key dc u.
Proof.
  unfold DrawCache_contains_key, DrawCache_insert; cbn [maps].
  destruct (decide (tile_zoom u = tile_zoom t)) as [Ez|Ez].
  - rewrite Ez, lookup_insert_eq.
    destruct (decide ((tile_x u, tile_y u) = (tile_x t, tile_y t))) as [Ek|Ek].
    + rewrite Ek, lookup_insert_eq.
      rewrite (bool_decide_eq_true_2 (u = t)) by (by apply TileId_eq_keys).
      cbn [orb]. apply bool_decide_eq_true_2. eauto.
    + rewrite lookup_insert_ne by done.
      rewrite (bool_decide_eq_false_2 (u = t)) by (rewrite TileId_eq_keys; tauto).
      cbn [orb]. destruct (maps dc !! tile_zoom t); cbn; [done|].
      by rewrite lookup_empty.
  - rewrite lookup_insert_ne by done.
    rewrite (bool_decide_eq_false_2 (u = t)) by (rewrite TileId_eq_keys; tauto).
    reflexivity.
Qed.

Lemma contains_key_remove (dc : DrawCache) (t u : TileId) :
  DrawCache_contains_key (DrawCache_remove dc t).1 u
  = bool_decide (u <> t) && DrawCache_contains_key dc u.
Proof.
  unfold DrawCache_contains_key, DrawCache_remove.
  destruct (maps dc !! tile_zoom t) as [inner|] eqn:Et; cbn [fst maps].
  - destruct (decide (tile_zoom u = tile_zoom t)) as [Ez|Ez].
    + rewrite Ez, lookup_insert_eq, Et.
      destruct (decide ((tile_x u, tile_y u) = (tile_x t, tile_y t))) as [Ek|Ek].
      * rewrite Ek, lookup_delete_eq.
        rewrite (bool_decide_eq_false_2 (u <> t)) by (rewrite TileId_eq_keys; tauto).
        cbn [andb]. apply bool_decide_eq_false_2. by intros [? ?].
      * rewrite lookup_delete_ne by done.
        rewrite (bool_decide_eq_true_2 (u <> t)) by (rewrite TileId_eq_keys; tauto).
        reflexivity.
    + rewrite lookup_insert_ne by done.
      rewrite (bool_decide_eq_true_2 (u <> t)) by (rewrite TileId_eq_keys; tauto).
      reflexivity.
  - destruct (decide (u = t)) as [->|Hne].
    + rewrite Et. by rewrite andb_false_r.
    + by rewrite bool_decide_eq_true_2.
Qed.

Lemma f64_eqb_refl (a : f64) : f64_eqb a a = true <-> a <> NaN.
Proof.
  destruct a; cbn; try (split; [discriminate|]; intros []; reflexivity);
    try (split; [intros _; discriminate|reflexivity]).
  unfold Reqb. destruct (Req_EM_T r r); [|contradiction].
  split; [intros _; discriminate|reflexivity].
Qed.

Lemma DrawData_eq_refl (d : DrawData) : DrawData_eq d d = true <-> DrawData_no_nan d.
Proof.
  unfold DrawData_eq, DrawData_no_nan. rewrite Z.eqb_refl, !andb_true_iff.
  rewrite !f64_eqb_refl. tauto.
Qed.

(* ------------------------------------------------------------------ *)
(** ** The tile cache *)

(** Every key the retain pass removes has an entry the closure rejects. *)
Lemma prune_scan_sound st target id :
  forall (es : list (TileId * Entry)) cnt,
    id ∈ prune_scan st target cnt es ->
    exists v, (id, v) ∈ es /\ retain_entry st id v = false.
Proof.
  induction es as [|[k v] es IH]; intros cnt Hin; cbn [prune_scan] in Hin.
  - by apply not_elem_of_nil in Hin.
  - destruct (target <=? cnt)%Z;
      [destruct (IH _ Hin) as (v' & ? & ?); exists v'; split; [by apply elem_of_cons; right|done]|].
    destruct (retain_entry st k v) eqn:Hr;
      [destruct (IH _ Hin) as (v' & ? & ?); exists v'; split; [by apply elem_of_cons; right|done]|].
    apply elem_of_cons in Hin as [->|Hin].
    + exists v. split; [apply elem_of_cons; by left|done].
    + destruct (IH _ Hin) as (v' & ? & ?). exists v'.
      split; [by apply elem_of_cons; right|done].
Qed.

(** The retain pass removes at most [prune_target - prune_count] keys. *)
Lemma prune_scan_length st target :
  forall (es : list (TileId * Entry)) cnt,
    (Z.of_nat (length (prune_scan st target cnt es)) <= Z.max 0 (target - cnt))%Z.
Proof.
  induction es as [|[k v] es IH]; intros cnt; cbn [prune_scan].
  - cbn. lia.
  - destruct (target <=? cnt)%Z eqn:Ht; [apply IH|].
    destruct (retain_entry st k v); [apply IH|].
    apply Z.leb_gt in Ht. cbn [length]. specialize (IH (cnt + 1)%Z). lia.
Qed.

Lemma drop_keys_nil (m : gmap TileId Entry) : drop_keys [] m = m.
Proof. apply map_filter_id. intros i x _. apply not_elem_of_nil. Qed.

Lemma drop_keys_cons (r : TileId) (rs : list TileId) (m : gmap TileId Entry) :
  drop_keys (r :: rs) m = delete r (drop_keys rs m).
Proof.
  apply map_eq. intros i. unfold drop_keys. rewrite !map_lookup_filter.
  destruct (decide (i = r)) as [->|Hne].
  - rewrite lookup_delete_eq. destruct (m !! r); cbn; [|done].
    rewrite option_guard_False; [done|]. cbn. intros Hn. apply Hn, elem_of_cons. by left.
  - rewrite lookup_delete_ne by congruence. rewrite map_lookup_filter.
    destruct (m !! i); cbn; [|done].
    destruct (decide (i ∉ rs)) as [Hi|Hi].
    + rewrite !option_guard_True; [done|done|]. cbn.
      rewrite elem_of_cons. tauto.
    + rewrite !option_guard_False; [done|done|]. cbn.
      rewrite elem_of_cons. tauto.
Qed.

(** Dropping the keys of [removed] shrinks the map by at most their
    number. *)
Lemma drop_keys_size (removed : list TileId) (m : gmap TileId Entry) :
  (size m <= size (drop_keys removed m) + length removed)%nat.
Proof.
  induction removed as [|r rs IH]; cbn [length].
  - rewrite drop_keys_nil. lia.
  - rewrite drop_keys_cons, map_size_delete.
    destruct (drop_keys rs m !! r); cbn; lia.
Qed.

(** The cache after [Prune]: the keys of the retain pass are dropped. *)
Lemma prune_result (now : Instant) (tc tc' : TileCache) (t : Task) :
  update now tc Prune = Some (tc', t) ->
  exists target,
    checked_sub (Z.of_nat (size (cache tc))) PRUNE_THRESH = Some target /\
    cache tc' = drop_keys (prune_scan now target 0 (map_to_list (cache tc))) (cache tc).
Proof.
  unfold_update; cbv zeta;
    destruct (checked_sub _ PRUNE_THRESH) as [target|]; try discriminate;
    intros Hu; injection Hu as <- _; cbn [cache]; eauto.
Qed.

(** The entry of [id] after [touch_in]: same states, same timer, other
    keys untouched, [id] stamped with [now]. *)
Lemma touch_in_spec (now : Instant) (tc : TileCache) (id : TileId) (e : Entry) :
  cache tc !! id = Some e ->
  state <$> cache (touch_in now tc id e) = state <$> cache tc /\
  cleanup_timer (touch_in now tc id e) = cleanup_timer tc /\
  (forall u, u <> id -> cache (touch_in now tc id e) !! u = cache tc !! u) /\
  cache (touch_in now tc id e) !! id = Some (mkEntry (state e) now).
Proof.
  intros He. unfold touch_in, touch; cbn [cache cleanup_timer].
  split; [|split; [done|split]].
  - rewrite fmap_insert. cbn [state]. apply insert_id. by rewrite lookup_fmap, He.
  - intros u Hu. by rewrite lookup_insert_ne by congruence.
  - by rewrite lookup_insert_eq.
Qed.

(** What [update] does with the cleanup timer: [due] is the condition
    of the cleanup block. *)
Lemma update_cleanup (now : Instant) (tc tc' : TileCache) (m : CacheMessage) (t : Task) :
  update now tc m = Some (tc', t) ->
  let due := (PRUNE_THRESH <? Z.of_nat (size (cache tc)))%Z
             && (CLEANUP_COOLDOWN <? Z.max 0 (now - cleanup_timer tc))%Z in
  cleanup_timer tc' = (if due then now else cleanup_timer tc) /\
  exists task, t = TaskBatch [if due then TaskDone Prune else TaskNone; task] /\
               Prune ∉ task_done task.
Proof.
  cbv zeta. unfold update.
  destruct (_ && _); cbv zeta; cbn [cache cleanup_timer];
    destruct m; repeat case_match; try discriminate;
    intros Hu; injection Hu as <- <-; cbn [cleanup_timer];
    (split; [reflexivity|]); eexists; (split; [reflexivity|]);
    cbn [task_done]; rewrite list_elem_of_In; cbn; intuition discriminate.
Qed.

(** [DrawCache::insert], [contains_key] and [remove]: inserting a tile
    adds exactly that tile to the tiles the cache contains, removing a
    tile drops exactly that tile, and removing a tile just inserted
    returns its handle and allocation. *)
Theorem draw_cache_membership (dc : DrawCache) (t u : TileId) (h : Handle)
    (c : f64 * f64) (s : f64) (a : Allocation) :
  DrawCache_contains_key (DrawCache_insert dc t h c s a) u
    = bool_decide (u = t) || DrawCache_contains_key dc u /\
  DrawCache_contains_key (DrawCache_remove dc t).1 u
    = bool_decide (u <> t) && DrawCache_contains_key dc u /\
  (DrawCache_remove (DrawCache_insert dc t h c s a) t).2 = Some (h, a).
Proof.
  split; [apply contains_key_insert|]. split; [apply contains_key_remove|].
  unfold DrawCache_remove, DrawCache_insert; cbn [maps].
  rewrite !lookup_insert_eq. reflexivity.
Qed.

(** [DrawCache::remove] of a tile the cache does not contain returns
    [None] and leaves the cache as it was. *)
Theorem draw_cache_remove_absent (dc : DrawCache) (t : TileId) :
  DrawCache_contains_key dc t = false ->
  DrawCache_remove dc t = (dc, None).
Proof.
  unfold DrawCache_contains_key, DrawCache_remove.
  destruct (maps dc !! tile_zoom t) as [inner|] eqn:Et; [|reflexivity].
  intros Hn. apply bool_decide_eq_false_1, eq_None_not_Some in Hn.
  rewrite Hn, delete_id by exact Hn. rewrite insert_id by exact Et.
  by destruct dc.
Qed.

Lemma draw_cache_remove_absent_witness :
  DrawCache_contains_key DrawCache_new tile7 = false /\
  DrawCache_remove DrawCache_new tile7 = (DrawCache_new, None).
Proof.
  assert (H : DrawCache_contains_key DrawCache_new tile7 = false) by reflexivity.
  split; [exact H|]. exact (draw_cache_remove_absent DrawCache_new tile7 H).
Defined.

(** [PartialEq for DrawCache] is reflexive on a cache exactly when no
    stored centre coordinate or size is NaN: the float comparisons of
    [PartialEq for DrawData] make a cache holding a NaN unequal to
    itself. *)
Theorem draw_cache_eq_refl_iff (dc : DrawCache) :
  DrawCache_eq dc dc = true <->
  (forall zoom inner coord d, maps dc !! zoom = Some inner ->
     inner !! coord = Some d -> DrawData_no_nan d).
Proof.
  unfold DrawCache_eq. rewrite Nat.eqb_refl, andb_true_l, forallb_forall.
  split.
  - intros H zoom inner coord d Hz Hc.
    assert (Hin : In (zoom, inner) (map_to_list (maps dc)))
      by (apply list_elem_of_In, elem_of_map_to_list, Hz).
    specialize (H _ Hin). cbn beta iota in H. rewrite Hz, Nat.eqb_refl in H.
    cbn [andb] in H. rewrite forallb_forall in H.
    assert (Hin' : In (coord, d) (map_to_list inner))
      by (apply list_elem_of_In, elem_of_map_to_list, Hc).
    specialize (H _ Hin'). cbn beta iota in H. rewrite Hc in H.
    by apply DrawData_eq_refl.
  - intros H [zoom inner] Hin.
    apply list_elem_of_In, elem_of_map_to_list in Hin.
    rewrite Hin, Nat.eqb_refl. cbn [andb]. apply forallb_forall.
    intros [coord d] Hin'. apply list_elem_of_In, elem_of_map_to_list in Hin'.
    rewrite Hin'. apply DrawData_eq_refl. exact (H _ _ _ _ Hin Hin').
Qed.

(** A fresh cache into which one tile was inserted and then removed
    contains no tile, yet compares unequal to [DrawCache::new()]: the
    emptied inner map of the zoom level stays. *)
Theorem draw_cache_emptied_not_new (t : TileId) (h : Handle) (c : f64 * f64)
    (s : f64) (a : Allocation) :
  let dc := (DrawCache_remove (DrawCache_insert DrawCache_new t h c s a) t).1 in
  (forall u, DrawCache_contains_key dc u = false) /\
  DrawCache_eq dc DrawCache_new = false /\
  DrawCache_eq DrawCache_new dc = false.
Proof.
  cbv zeta. split.
  - intros u. rewrite contains_key_remove, contains_key_insert.
    destruct (decide (u = t)) as [->|Hne].
    + by rewrite bool_decide_eq_false_2 by tauto.
    + rewrite (bool_decide_eq_false_2 (u = t)) by done. cbn [orb].
      unfold DrawCache_contains_key, DrawCache_new; cbn [maps].
      rewrite lookup_empty. apply andb_false_r.
  - unfold DrawCache_remove, DrawCache_insert, DrawCache_new; cbn [maps].
    rewrite lookup_insert_eq; cbn [fst maps].
    rewrite insert_insert_eq, insert_empty.
    unfold DrawCache_eq; cbn [maps]. rewrite map_size_singleton, map_size_empty.
    split; reflexivity.
Qed.

(** The queries only touch: they change no state, no other entry and not
    the cleanup timer; the entry of the queried tile, if any, is either
    as before or stamped with [now]. *)
Theorem queries_only_touch (now : Instant) (tc tc' : TileCache) (id : TileId) :
  tc' = (should_load now tc id).2 \/ tc' = (should_alloc now tc id).2 \/
  tc' = (get_drawable now tc id).2 ->
  state <$> cache tc' = state <$> cache tc /\
  cleanup_timer tc' = cleanup_timer tc /\
  (forall u, u <> id -> cache tc' !! u = cache tc !! u) /\
  (forall e, cache tc' !! id = Some e -> cache tc !! id = Some e \/ last_used e = now).
Proof.
  unfold should_load, should_alloc, get_drawable.
  destruct (cache tc !! id) as [e|] eqn:He; cbn [snd].
  - destruct (touch_in_spec now tc id e He) as (Hs & Ht & Ho & Hi).
    assert (Htouch : forall tc1, tc1 = touch_in now tc id e ->
      state <$> cache tc1 = state <$> cache tc /\
      cleanup_timer tc1 = cleanup_timer tc /\
      (forall u, u <> id -> cache tc1 !! u = cache tc !! u) /\
      (forall e', cache tc1 !! id = Some e' -> Some e = Some e' \/ last_used e' = now)).
    { intros tc1 ->. split; [done|]. split; [done|]. split; [done|].
      intros e' He'. rewrite Hi in He'. injection He' as <-. by right. }
    intros [-> | [-> | ->]]; [by apply Htouch|by apply Htouch|].
    destruct (state e); cbn [snd]; [| | |by apply Htouch].
    all: split; [done|]; split; [done|]; split; [done|]; intros; left; congruence.
  - intros [-> | [-> | ->]]; (split; [done|]; split; [done|]; split; [done|]; intros; left; congruence).
Qed.

Lemma queries_only_touch_witness :
  exists tc', tc' = (should_load 7 big_cache tile0).2 /\
  state <$> cache tc' = state <$> cache big_cache.
Proof.
  exists (should_load 7 big_cache tile0).2. split; [reflexivity|].
  apply (queries_only_touch 7 big_cache _ tile0). by left.
Defined.

(** A tile queried by [should_load] or [should_alloc] at [now] survives
    any [Prune] that starts less than [PRUNE_TIME] after [now], whatever
    its zoom and state, with its state unchanged. *)
Theorem touched_survives_prune (now now' : Instant) (tc tc1 tc' : TileCache)
    (id : TileId) (e : Entry) (t : Task) :
  cache tc !! id = Some e ->
  (now' < now + PRUNE_TIME)%Z ->
  tc1 = (should_load now tc id).2 \/ tc1 = (should_alloc now tc id).2 ->
  update now' tc1 Prune = Some (tc', t) ->
  cache tc' !! id = Some (mkEntry (state e) now).
Proof.
  intros He Hnow Hq Hu.
  assert (H1 : tc1 = touch_in now tc id e).
  { unfold should_load, should_alloc in Hq. rewrite He in Hq. cbn [snd] in Hq.
    by destruct Hq. }
  subst tc1. destruct (touch_in_spec now tc id e He) as (_ & _ & _ & Hi).
  destruct (prune_result _ _ _ _ Hu) as (target & _ & ->).
  apply drop_keys_lookup; [exact Hi|].
  apply prune_scan_keeps. intros v Hv.
  apply elem_of_map_to_list in Hv. rewrite Hi in Hv. injection Hv as <-.
  unfold retain_entry; cbn [state last_used].
  destruct (state e); try reflexivity.
  all: destruct (tile_zoom id <? 6)%Z; [reflexivity|].
  all: unfold checked_duration_since; destruct (now <=? now')%Z; [|reflexivity].
  all: apply Z.ltb_lt; lia.
Qed.

Lemma touched_survives_prune_witness :
  exists tc' t,
    update 100000 (should_load 50000 big_cache (mkTileId 0 0 10)).2 Prune = Some (tc', t) /\
    cache tc' !! mkTileId 0 0 10 = Some (mkEntry (StLoaded 2) 50000).
Proof.
  assert (Hs : (PRUNE_THRESH <=? Z.of_nat (size (cache
                 (should_load 50000 big_cache (mkTileId 0 0 10)).2)))%Z = true)
    by (vm_compute; reflexivity).
  destruct (update_prune_runs 100000 _ Hs) as (tc' & t & Hu).
  exists tc', t. split; [exact Hu|].
  exact (touched_survives_prune 50000 100000 big_cache _ tc' (mkTileId 0 0 10)
           (mkEntry (StLoaded 2) 0) t ltac:(vm_compute; reflexivity)
           ltac:(vm_compute; reflexivity) (or_introl eq_refl) Hu).
Defined.

(** A message about one tile leaves the entries of all other tiles as
    they were. *)
Theorem update_other_tiles_unchanged (now : Instant) (tc tc' : TileCache)
    (m : CacheMessage) (id u : TileId) (t : Task) :
  msg_tile m = Some id -> u <> id ->
  update now tc m = Some (tc', t) ->
  cache tc' !! u = cache tc !! u.
Proof.
  intros Hm Hne. destruct m; cbn [msg_tile] in Hm; try discriminate;
    injection Hm as <-;
    unfold_update; cbv zeta; repeat case_match; try discriminate;
    intros Hu; injection Hu as <- _; cbn [cache];
    rewrite ?lookup_insert_ne, ?lookup_delete_ne by congruence; reflexivity.
Qed.

Lemma update_other_tiles_unchanged_witness :
  exists tc' t,
    update 5 (mkTileCache {[tile0 := mkEntry (StLoaded 3) 1]} 0) (Loaded tile7 4)
      = Some (tc', t) /\
    tile0 <> tile7 /\ cache tc' !! tile0 = Some (mkEntry (StLoaded 3) 1).
Proof.
  destruct (update 5 (mkTileCache {[tile0 := mkEntry (StLoaded 3) 1]} 0) (Loaded tile7 4))
    as [[tc' t]|] eqn:E; [|vm_compute in E; discriminate E].
  exists tc', t. split; [reflexivity|].
  assert (Hne : tile0 <> tile7) by (intros H; discriminate H).
  split; [exact Hne|].
  rewrite (update_other_tiles_unchanged 5 (mkTileCache {[tile0 := mkEntry (StLoaded 3) 1]} 0)
             tc' (Loaded tile7 4) tile7 tile0 t eq_refl Hne E).
  reflexivity.
Defined.

(** [Prune] keeps at least [PRUNE_THRESH] entries, only removes entries,
    and only removes [Loaded] or [Allocated] entries at zoom 6 or more
    that were last used at least [PRUNE_TIME] before it started. *)
Theorem prune_bounds (now : Instant) (tc tc' : TileCache) (t : Task) :
  update now tc Prune = Some (tc', t) ->
  (PRUNE_THRESH <= Z.of_nat (size (cache tc')))%Z /\
  cache tc' ⊆ cache tc /\
  (forall id e, cache tc !! id = Some e -> cache tc' !! id = None ->
     (6 <= tile_zoom id)%Z /\ (last_used e + PRUNE_TIME <= now)%Z /\
     ((exists h, state e = StLoaded h) \/ (exists h a, state e = StAllocated h a))).
Proof.
  intros Hu. destruct (prune_result _ _ _ _ Hu) as (target & Hc & ->).
  unfold checked_sub in Hc.
  destruct (PRUNE_THRESH <=? Z.of_nat (size (cache tc)))%Z eqn:Hle; [|discriminate].
  injection Hc as <-. apply Z.leb_le in Hle.
  split; [|split].
  - pose proof (drop_keys_size (prune_scan now (Z.of_nat (size (cache tc)) - PRUNE_THRESH) 0
                                 (map_to_list (cache tc))) (cache tc)) as Hs.
    pose proof (prune_scan_length now (Z.of_nat (size (cache tc)) - PRUNE_THRESH)
                  (map_to_list (cache tc)) 0) as Hl.
    lia.
  - apply map_filter_subseteq.
  - intros id e He Hn. unfold drop_keys in Hn.
    apply map_lookup_filter_None in Hn as [Hn|Hn]; [congruence|].
    specialize (Hn e He). cbn in Hn.
    apply dec_stable in Hn.
    destruct (prune_scan_sound _ _ _ _ _ Hn) as (v & Hv & Hr).
    apply elem_of_map_to_list in Hv. rewrite He in Hv. injection Hv as <-.
    unfold retain_entry in Hr.
    destruct (state e) as [|h|h|h a] eqn:Hst; try discriminate;
      (destruct (tile_zoom id <? 6)%Z eqn:Hz; [discriminate|]; apply Z.ltb_ge in Hz;
       unfold checked_duration_since in Hr;
       destruct (last_used e <=? now)%Z eqn:Hlu; [|discriminate];
       apply Z.leb_le in Hlu; apply Z.ltb_ge in Hr;
       split; [exact Hz|]; split; [lia|]; eauto).
Qed.

Lemma prune_bounds_witness :
  exists tc' t, update 100000 big_cache Prune = Some (tc', t) /\
    (PRUNE_THRESH <= Z.of_nat (size (cache tc')))%Z.
Proof.
  assert (Hs : (PRUNE_THRESH <=? Z.of_nat (size (cache big_cache)))%Z = true)
    by (vm_compute; reflexivity).
  destruct (update_prune_runs 100000 big_cache Hs) as (tc' & t & Hu).
  exists tc', t. split; [exact Hu|]. exact (proj1 (prune_bounds _ _ _ _ Hu)).
Defined.

(** While the cleanup timer reads [t0], updates no later than
    [t0 + CLEANUP_COOLDOWN] schedule no [Prune] and leave the timer. *)
Lemma updates_in_cooldown (t0 : Instant) :
  forall msgs tc tc2 ts,
    cleanup_timer tc = t0 ->
    Forall (fun nm => (nm.1 <= t0 + CLEANUP_COOLDOWN)%Z) msgs ->
    update_seq tc msgs = Some (tc2, ts) ->
    Forall (fun t => Prune ∉ task_done t) ts.
Proof.
  induction msgs as [|[n m] msgs IH]; intros tc tc2 ts Ht Hall Hs; cbn [update_seq] in Hs.
  - injection Hs as _ <-. constructor.
  - apply Forall_cons in Hall as [Hn Hall]. cbn [fst] in Hn.
    destruct (update n tc m) as [[tc1 t]|] eqn:Hu; [|discriminate].
    destruct (update_seq tc1 msgs) as [[tc2' ts']|] eqn:Hs'; [|discriminate].
    injection Hs as _ <-.
    destruct (update_cleanup _ _ _ _ _ Hu) as (Ht1 & task & -> & Hp).
    replace (CLEANUP_COOLDOWN <? Z.max 0 (n - cleanup_timer tc))%Z with false in *
      by (symmetry; apply Z.ltb_ge; rewrite Ht; unfold CLEANUP_COOLDOWN in *; lia).
    rewrite andb_false_r in Ht1 |- *. constructor.
    + cbn [task_done]. rewrite !elem_of_app.
      intros [Hin|[Hin|Hin]]; [by apply not_elem_of_nil in Hin|done|].
      by apply not_elem_of_nil in Hin.
    + apply (IH tc1 tc2' ts'); [congruence|exact Hall|exact Hs'].
Qed.

(** Every update stamps the cleanup timer and schedules a [Prune] exactly
    when the cache holds more than [PRUNE_THRESH] entries and more than
    [CLEANUP_COOLDOWN] has passed since the timer; after an update that
    scheduled a [Prune], no update in any sequence of updates no later
    than [CLEANUP_COOLDOWN] after it schedules another. *)
Theorem prune_scheduling (now : Instant) (tc tc1 tc2 : TileCache) (m : CacheMessage)
    (t1 : Task) (msgs : list (Instant * CacheMessage)) (ts : list Task) :
  update now tc m = Some (tc1, t1) ->
  let due := (PRUNE_THRESH <? Z.of_nat (size (cache tc)))%Z
             && (CLEANUP_COOLDOWN <? Z.max 0 (now - cleanup_timer tc))%Z in
  (cleanup_timer tc1 = (if due then now else cleanup_timer tc) /\
   (Prune ∈ task_done t1 <-> due = true)) /\
  (due = true ->
   Forall (fun nm => (nm.1 <= now + CLEANUP_COOLDOWN)%Z) msgs ->
   update_seq tc1 msgs = Some (tc2, ts) ->
   Forall (fun t => Prune ∉ task_done t) ts).
Proof.
  intros H1 due. destruct (update_cleanup _ _ _ _ _ H1) as (Ht1 & task & -> & Hp).
  fold due in Ht1 |- *. split.
  - split; [exact Ht1|]. cbn [task_done]. rewrite !elem_of_app.
    destruct due; cbn [task_done]; rewrite ?list_elem_of_In; cbn.
    + split; [done|]. intros _. by left; left.
    + split; [|discriminate]. rewrite <- list_elem_of_In. intros [[]|[Hin|Hin]]; [done|].
      inversion Hin.
  - intros Hdue Hall Hs. rewrite Hdue in Ht1.
    exact (updates_in_cooldown now msgs tc1 tc2 ts Ht1 Hall Hs).
Qed.

(** [big_cache] after a [Load] at time 10000: over the threshold and the
    cooldown, so the update schedules a [Prune] and stamps the timer. *)
Lemma prune_scheduling_witness :
  exists tc1 t1 tc2 ts,
    update 10000 big_cache (Load tile7) = Some (tc1, t1) /\
    Prune ∈ task_done t1 /\
    update_seq tc1 [(12000, Load (mkTileId 3 0 10)); (15000, Prune)] = Some (tc2, ts) /\
    Forall (fun t => Prune ∉ task_done t) ts.
Proof.
  set (msgs := [(12000, Load (mkTileId 3 0 10)); (15000, Prune)]).
  assert (Hs : match update 10000 big_cache (Load tile7) with
               | Some (tc1, _) =>
                   match update_seq tc1 msgs with Some _ => True | None => False end
               | None => False
               end) by (vm_compute; exact I).
  destruct (update 10000 big_cache (Load tile7)) as [[tc1 t1]|] eqn:E1; [|contradiction].
  destruct (update_seq tc1 msgs) as [[tc2 ts]|] eqn:E2; [|contradiction].
  assert (Hdue : (PRUNE_THRESH <? Z.of_nat (size (cache big_cache)))%Z
                 && (CLEANUP_COOLDOWN <? Z.max 0 (10000 - cleanup_timer big_cache))%Z
                 = true) by (vm_compute; reflexivity).
  pose proof (prune_scheduling 10000 big_cache tc1 tc2 (Load tile7) t1 msgs ts E1) as HP.
  exists tc1, t1, tc2, ts. split; [reflexivity|]. split.
  - apply (proj2 (proj2 (proj1 HP))). exact Hdue.
  - split; [exact E2|]. apply (proj2 HP Hdue); [|exact E2].
    subst msgs. repeat constructor; cbn; unfold CLEANUP_COOLDOWN; lia.
Defined.

(** [Allocate] on a [Loaded] tile marks it [Allocating], stamped with
    [now], and starts the allocation of its handle; an [AllocFailed] for
    it then puts it back to [Loaded] with the same handle. *)
Theorem allocate_then_failed (now now' : Instant) (tc tc1 tc2 : TileCache)
    (id : TileId) (h : Handle) (lu : Instant) (err : Z) (t1 t2 : Task) :
  cache tc !! id = Some (mkEntry (StLoaded h) lu) ->
  update now tc (Allocate id) = Some (tc1, t1) ->
  update now' tc1 (AllocFailed id err) = Some (tc2, t2) ->
  cache tc1 !! id = Some (mkEntry (Allocating h) now) /\
  (exists ct, t1 = TaskBatch [ct; TaskAllocate id h]) /\
  cache tc2 !! id = Some (mkEntry (StLoaded h) now).
Proof.
  intros Hl H1 H2. revert H1.
  unfold_update; cbv zeta; rewrite Hl; intros H1; injection H1 as <- <-;
    revert H2; cbn [cache];
    (unfold_update; cbv zeta; cbn [cache]; rewrite lookup_insert_eq;
     intros H2; injection H2 as <- _; cbn [cache];
     rewrite !lookup_insert_eq; eauto).
Qed.

Lemma allocate_then_failed_witness :
  exists tc1 t1 tc2 t2,
    update 5 (mkTileCache {[tile7 := mkEntry (StLoaded 3) 1]} 0) (Allocate tile7)
      = Some (tc1, t1) /\
    update 6 tc1 (AllocFailed tile7 0) = Some (tc2, t2) /\
    cache tc2 !! tile7 = Some (mkEntry (StLoaded 3) 5).
Proof.
  do 4 eexists. split; [reflexivity|]. split; [reflexivity|].
  refine (proj2 (proj2 (allocate_then_failed 5 6 (mkTileCache {[tile7 := mkEntry (StLoaded 3) 1]} 0) _ _ tile7 3 1 0 _ _ _ _ _))).
  - reflexivity.
  - reflexivity.
  - reflexivity.
Defined.

(** [Load] of a tile with no entry creates a [Loading] entry and starts
    the fetch; a [LoadFailed] for it then gives back exactly the cache
    entries there were before the [Load]. *)
Theorem load_then_failed (now now' : Instant) (tc tc1 tc2 : TileCache)
    (id : TileId) (t1 t2 : Task) :
  cache tc !! id = None ->
  update now tc (Load id) = Some (tc1, t1) ->
  update now' tc1 (LoadFailed id) = Some (tc2, t2) ->
  cache tc1 !! id = Some (mkEntry Loading now) /\
  (exists ct, t1 = TaskBatch [ct; TaskFetch id]) /\
  cache tc2 = cache tc.
Proof.
  intros Hl H1 H2. revert H1.
  unfold_update; cbv zeta; rewrite Hl; intros H1; injection H1 as <- <-;
    revert H2; cbn [cache];
    (unfold_update; cbv zeta; cbn [cache]; rewrite lookup_insert_eq;
     intros H2; injection H2 as <- _; cbn [cache];
     rewrite ?lookup_insert_eq, delete_insert_id by exact Hl; eauto).
Qed.

Lemma load_then_failed_witness :
  exists tc1 t1 tc2 t2,
    update 5 (mkTileCache {[tile0 := mkEntry (StLoaded 3) 1]} 0) (Load tile7)
      = Some (tc1, t1) /\
    update 6 tc1 (LoadFailed tile7) = Some (tc2, t2) /\
    cache tc2 = {[tile0 := mkEntry (StLoaded 3) 1]}.
Proof.
  do 4 eexists. split; [reflexivity|]. split; [reflexivity|].
  refine (proj2 (proj2 (load_then_failed 5 6 (mkTileCache {[tile0 := mkEntry (StLoaded 3) 1]} 0) _ _ tile7 _ _ _ _ _))).
  - reflexivity.
  - reflexivity.
  - reflexivity.
Defined.
